(** * tables_generator.py: marker-scoped README regeneration

    A shallow embedding of [TableGenerator] (src/tables_generator.py) and the
    properties of its marker locator, table builder, image enumeration and
    directory processor.

    Representation.  A Python [str] is represented by the [string] of its
    UTF-8 bytes.  Concatenation, [str.find] followed by slicing at the
    offsets it returns, and the ordering of strings all commute with that
    encoding; offsets in this development therefore count bytes where Python
    counts code points.  [str.lower] depends on the case tables of Unicode
    and is a parameter of the development (class [Unicode]).

    The directory processor is embedded twice.  [process_directory] works on
    the text of the README, the [str] that [Path.read_text] returns and that
    [Path.write_text] receives.  [process_directory_io] works on the bytes
    of the file and adds what the two calls do between bytes and text:
    decoding, newline translation, truncation and encoding. *)

From Stdlib Require Import String Ascii List ZArith NArith Lia Bool.
From Stdlib Require Import Sorting.Sorted Sorting.Permutation.
From Stdlib Require OrderedTypeEx.
Import ListNotations.

Local Open Scope string_scope.
Local Open Scope Z_scope.

(** ** Python string primitives used by the script *)

Module PyStr.

(** [len(s)] *)
Definition len (s : string) : Z := Z.of_nat (String.length s).

(** The first [n] characters of [s], and [s] without them. *)
Fixpoint take (n : nat) (s : string) : string :=
  match n, s with
  | S n', String c s' => String c (take n' s')
  | _, _ => EmptyString
  end.

Fixpoint drop (n : nat) (s : string) : string :=
  match n, s with
  | S n', String _ s' => drop n' s'
  | _, _ => s
  end.

(** Normalisation of one slice bound against a length, as [s[a:b]] does it:
    a negative bound counts from the end, and every bound is clamped. *)
Definition clamp (l i : Z) : Z :=
  if i <? 0 then Z.max 0 (i + l) else Z.min i l.

(** [s[a:b]] *)
Definition slice (s : string) (a b : Z) : string :=
  let a' := clamp (len s) a in
  let b' := clamp (len s) b in
  take (Z.to_nat (b' - a')) (drop (Z.to_nat a') s).

(** [s[:b]] and [s[a:]] *)
Definition slice_to (s : string) (b : Z) : string := slice s 0 b.
Definition slice_from (s : string) (a : Z) : string := slice s a (len s).

(** [s.find(sub)]: the lowest index at which [sub] occurs, or [-1]. *)
Fixpoint find (s sub : string) : Z :=
  if String.prefix sub s then 0
  else match s with
       | EmptyString => -1
       | String _ s' =>
           let r := find s' sub in
           if r =? -1 then -1 else r + 1
       end.

(** [s.rfind(sub)]: the highest index at which [sub] occurs, or [-1]. *)
Fixpoint rfind (s sub : string) : Z :=
  match s with
  | EmptyString => if String.prefix sub s then 0 else -1
  | String _ s' =>
      let r := rfind s' sub in
      if negb (r =? -1) then r + 1
      else if String.prefix sub s then 0 else -1
  end.

(** Lower case of the letters A to Z, every other byte kept. *)
Definition lower_ascii (c : ascii) : ascii :=
  let n := N_of_ascii c in
  if (65 <=? n)%N && (n <=? 90)%N then ascii_of_N (n + 32) else c.

Fixpoint ascii_lower (s : string) : string :=
  match s with
  | EmptyString => EmptyString
  | String c s' => String (lower_ascii c) (ascii_lower s')
  end.

(** Text made of ASCII characters only. *)
Fixpoint is_ascii (s : string) : bool :=
  match s with
  | EmptyString => true
  | String c s' => (N_of_ascii c <? 128)%N && is_ascii s'
  end.

(** [s.lower()].  The case mapping of Unicode is a table of the Python
    runtime, not of the program: it is a parameter here, together with the
    two facts about it that the development uses.  On ASCII text it lowers
    the letters A to Z and nothing else, and it never maps a non-empty text
    to the empty one. *)
Class Unicode : Type := {
  lower : string -> string;
  lower_of_ascii : forall s, is_ascii s = true -> lower s = ascii_lower s;
  lower_nonempty : forall s, lower s = "" -> s = ""
}.

Definition ascii_lower_nonempty (s : string) : ascii_lower s = "" -> s = "" :=
  match s with
  | EmptyString => fun _ => eq_refl
  | String c s' =>
      fun H : String (lower_ascii c) (ascii_lower s') = EmptyString =>
        match H in (_ = t)
              return (match t with
                      | EmptyString => String c s' = EmptyString
                      | String _ _ => True
                      end)
        with eq_refl => I end
  end.

(** The case mapping restricted to ASCII, for the examples. *)
#[global] Instance ascii_unicode : Unicode := {|
  lower := ascii_lower;
  lower_of_ascii := fun s _ => eq_refl;
  lower_nonempty := ascii_lower_nonempty
|}.

(** [sep.join(parts)] *)
Definition join (sep : string) (parts : list string) : string :=
  String.concat sep parts.

(** [x in xs] for a list of strings *)
Definition mem (x : string) (xs : list string) : bool :=
  existsb (String.eqb x) xs.

(** [[x] * n] *)
Definition replicate (x : string) (n : Z) : list string :=
  repeat x (Z.to_nat n).

(** [sub] occurs somewhere in [s]. *)
Definition occurs (sub s : string) : Prop :=
  exists a b, s = a ++ sub ++ b.

End PyStr.

Import PyStr.

(** ** The generator object *)

(** The mapping loaded from [config.yml].  The two optional keys are read
    with [dict.get(key, "")]: a missing key is [None] here, a key whose value
    is YAML null is [Some None]. *)
Record Config := {
  cfg_wallpapers_dir_name : string;
  cfg_exclude_dirs : option (list string);
  cfg_allowed_extensions : list string;
  cfg_opening_marker : string;
  cfg_closing_marker : string;
  cfg_columns : Z;
  cfg_header : option (option string);
  cfg_footer : option (option string)
}.

(** The attributes that [__init__] sets on [self].  [header_text] and
    [footer_text] are [None] when the Python value is [None]. *)
Record TableGenerator := {
  wallpapers_dir_name : string;
  exclude_dirs : list string;
  allowed_extensions : list string;
  opening_marker : string;
  closing_marker : string;
  columns : Z;
  header_text : option string;
  footer_text : option string
}.

Definition dict_get {A} (v : option A) (default : A) : A :=
  match v with Some x => x | None => default end.

Definition init {U : Unicode} (config : Config) : TableGenerator := {|
  wallpapers_dir_name := cfg_wallpapers_dir_name config;
  exclude_dirs := dict_get (cfg_exclude_dirs config) [];
  allowed_extensions := map lower (cfg_allowed_extensions config);
  opening_marker := cfg_opening_marker config;
  closing_marker := cfg_closing_marker config;
  columns := cfg_columns config;
  header_text := dict_get (cfg_header config) (Some "");
  footer_text := dict_get (cfg_footer config) (Some "")
|}.

Definition README_NAME : string := "README.md".

(** ** [_find_readme_with_markers]

    [content] is the result of [readme_path.read_text(encoding="utf-8")]. *)
Definition find_readme_with_markers (self : TableGenerator) (content : string)
  : bool * string * string * string :=
  let start_index := find content (opening_marker self) in
  let end_index := find content (closing_marker self) in
  if (start_index =? -1) || (end_index =? -1) then
    (false, "", "", "")
  else
    let end_index := end_index + len (closing_marker self) in
    let before_text := slice_to content start_index in
    let generated_block := slice content start_index end_index in
    let after_text := slice_from content end_index in
    (true, before_text, generated_block, after_text).

(** ** The directory seen by [process_directory]

    A directory is the list of its entries in the order [Path.iterdir]
    yields them; an entry is a name and what the name denotes.  A [Path]
    inside one directory is identified by its name.  The directory lies
    under [wallpapers_dir], as every directory that [run] passes does, and
    [relative_path] is the text of its path relative to it. *)
Inductive node : Type :=
  | File (content : string)
  | Directory.

Record Dir := {
  relative_path : string;          (* str(directory.relative_to(wallpapers_dir)) *)
  entries : list (string * node)
}.

Definition is_file (n : node) : bool :=
  match n with File _ => true | Directory => false end.

Fixpoint lookup (name : string) (es : list (string * node)) : option node :=
  match es with
  | [] => None
  | (n, x) :: es' => if String.eqb n name then Some x else lookup name es'
  end.

(** [path.write_text(content)] on an existing name: the entry now denotes a
    file with that content; nothing else changes. *)
Fixpoint write_text (name content : string) (es : list (string * node))
  : list (string * node) :=
  match es with
  | [] => []
  | (n, x) :: es' =>
      if String.eqb n name then (n, File content) :: es'
      else (n, x) :: write_text name content es'
  end.

(** [PurePath.suffix] of a final path component (pathlib):
    [i = name.rfind('.')]; the suffix is [name[i:]] when
    [0 < i < len(name) - 1], and empty otherwise. *)
Definition suffix (name : string) : string :=
  let i := rfind name "." in
  if (0 <? i) && (i <? len name - 1) then slice_from name i else "".

(** ** [_find_image_files] *)

(** [list.sort(key=lambda p: p.name)]: a stable sort that compares the keys
    with [<]. *)
Fixpoint insert_by_name (p : string) (sorted : list string) : list string :=
  match sorted with
  | [] => [p]
  | q :: rest =>
      if String.ltb q p then q :: insert_by_name p rest
      else p :: q :: rest
  end.

Definition sort_by_name (ps : list string) : list string :=
  fold_right insert_by_name [] ps.

(** One iteration of the loop over [directory.iterdir()]. *)
Definition image_step {U : Unicode} (self : TableGenerator) (image_files : list string)
  (entry : string * node) : list string :=
  if is_file (snd entry) then
    if mem (lower (suffix (fst entry))) (allowed_extensions self) then
      (image_files ++ [fst entry])%list
    else image_files
  else image_files.

Definition find_image_files {U : Unicode} (self : TableGenerator) (directory : Dir)
  : list string :=
  let image_files := fold_left (image_step self) (entries directory) [] in
  sort_by_name image_files.

(** ** [_generate_table] *)

Definition NL : string := String "010"%char EmptyString.

Definition NO_IMAGES : string := "_(В этой директории нет изображений)_".

(** ["| " + " | ".join(row) + " |"] *)
Definition row_text (row : list string) : string :=
  "| " ++ join " | " row ++ " |".

Definition cell_text (base_path name : string) : string :=
  let rel_path := base_path ++ "/" ++ name in
  "[![preview](" ++ rel_path ++ ")](" ++ rel_path ++ ")".

(** One iteration of the loop over [image_files]; the state is
    [(rows, current_row)]. *)
Definition table_step (self : TableGenerator) (base_path : string)
  (st : list string * list string) (image_path : string)
  : list string * list string :=
  let '(rows, current_row) := st in
  let cell := cell_text base_path image_path in
  let current_row := (current_row ++ [cell])%list in
  if Z.of_nat (length current_row) =? columns self then
    ((rows ++ [row_text current_row])%list, [])
  else (rows, current_row).

(** [while len(current_row) < self.columns: current_row.append(" ")] *)
Fixpoint pad_loop (fuel : nat) (cols : Z) (current_row : list string)
  : list string :=
  match fuel with
  | O => current_row
  | S fuel' =>
      if Z.of_nat (length current_row) <? cols then
        pad_loop fuel' cols (current_row ++ [" "])%list
      else current_row
  end.

(** The loop appends one cell per iteration, so [columns] iterations are
    always enough. *)
Definition pad_row (cols : Z) (current_row : list string) : list string :=
  pad_loop (Z.to_nat cols) cols current_row.

(** The list [rows] when the final [return] is reached. *)
Definition table_rows (self : TableGenerator) (image_files : list string)
  (base_path : string) : list string :=
  let '(rows, current_row) :=
    fold_left (table_step self base_path) image_files ([], []) in
  match current_row with
  | [] => rows
  | _ => (rows ++ [row_text (pad_row (columns self) current_row)])%list
  end.

Definition generate_table (self : TableGenerator) (image_files : list string)
  (base_path : string) : string :=
  match image_files with
  | [] => NO_IMAGES
  | _ =>
      let rows := table_rows self image_files base_path in
      let hidden_header := row_text (replicate "" (columns self)) in
      let header_separator := row_text (replicate ":---:" (columns self)) in
      hidden_header ++ NL ++ header_separator ++ NL ++ join NL rows
  end.

(** ** [_build_generated_block] *)

Fixpoint not_none (parts : list (option string)) : list string :=
  match parts with
  | [] => []
  | Some p :: parts' => p :: not_none parts'
  | None :: parts' => not_none parts'
  end.

Definition build_generated_block (self : TableGenerator) (table : string)
  : string :=
  let parts :=
    [ Some (opening_marker self);
      header_text self;
      Some "";
      Some table;
      Some "";
      footer_text self;
      Some (closing_marker self) ] in
  join NL (not_none parts).

(** ** [process_directory] *)

(** The exceptions that [process_directory] lets escape on a file system
    that grants every access. *)
Inductive exn : Type :=
  | IsADirectoryError
  | UnicodeDecodeError
  | UnicodeEncodeError.

Inductive result (A : Type) : Type :=
  | Ok (a : A)
  | Raise (e : exn).
Arguments Ok {A} a.
Arguments Raise {A} e.

(** The directory after the call, on the text of the README: here the
    content of a [File] is the text that [read_text] returns and that
    [write_text] receives.  [readme_path.exists()] holds for any entry
    called README.md; reading one that is a directory raises. *)
Definition process_directory {U : Unicode} (self : TableGenerator) (directory : Dir)
  : result Dir :=
  match lookup README_NAME (entries directory) with
  | None => Ok directory
  | Some Directory => Raise IsADirectoryError
  | Some (File content) =>
      let '(found, before_text, _, after_text) :=
        find_readme_with_markers self content in
      if negb found then Ok directory
      else
        let image_files := find_image_files self directory in
        let base_path :=
          "/" ++ wallpapers_dir_name self ++ "/" ++ relative_path directory in
        let table := generate_table self image_files base_path in
        let new_generated_block := build_generated_block self table in
        let new_content := before_text ++ new_generated_block ++ after_text in
        Ok {| relative_path := relative_path directory;
              entries := write_text README_NAME new_content
                           (entries directory) |}
  end.

(** The text of the README of a directory, when there is one. *)
Definition readme_text (directory : Dir) : option string :=
  match lookup README_NAME (entries directory) with
  | Some (File content) => Some content
  | _ => None
  end.

(** ** Notions used to state the properties *)

(** The row format in the words of the specification: a row is a pipe
    followed, for each cell, by a space, the cell, a space and a pipe. *)
Fixpoint piped (cells : list string) : string :=
  match cells with
  | [] => ""
  | c :: cs => " " ++ c ++ " |" ++ piped cs
  end.

Definition pipe_row (cells : list string) : string := "|" ++ piped cells.

(** ceil(l / c) for a positive [c] *)
Definition ceil_div (l c : Z) : Z := (l + c - 1) / c.

(** A row of a grid is full when it has [cols] cells. *)
Definition full_row (cols : Z) (row : list string) : Prop :=
  Z.of_nat (length row) = cols.

(** The test under which the enumeration loop keeps an entry. *)
Definition is_image {U : Unicode} (self : TableGenerator) (entry : string * node) : bool :=
  is_file (snd entry)
  && mem (lower (suffix (fst entry))) (allowed_extensions self).

(** Ascending order of names, as Python compares strings. *)
Definition name_le (a b : string) : Prop := String.leb a b = true.

(** The link-path prefix and the block that [process_directory] computes
    for a directory. *)
Definition base_path_of (self : TableGenerator) (directory : Dir) : string :=
  "/" ++ wallpapers_dir_name self ++ "/" ++ relative_path directory.

Definition regenerated_block {U : Unicode} (self : TableGenerator) (directory : Dir)
  : string :=
  build_generated_block self
    (generate_table self (find_image_files self directory)
       (base_path_of self directory)).

(** ** Sample configurations and directories *)

Definition sample_config (exts : list string) (cols : Z) : Config := {|
  cfg_wallpapers_dir_name := "wallpapers";
  cfg_exclude_dirs := None;
  cfg_allowed_extensions := exts;
  cfg_opening_marker := "<!-- BEGIN -->";
  cfg_closing_marker := "<!-- END -->";
  cfg_columns := cols;
  cfg_header := Some (Some "## Preview");
  cfg_footer := None
|}.

Definition sample : TableGenerator := init (sample_config [".jpg"; ".PNG"] 2).

(** A document whose closing marker comes first. *)
Definition inverted_readme : string :=
  "<!-- END -->old<!-- BEGIN -->".

(** A document whose prose quotes the opening marker ahead of the block. *)
Definition quoting_prose : string := "<!-- BEGIN --> starts the table. ".

Definition plain_readme : string :=
  "# Nature" ++ NL ++ "<!-- BEGIN -->old<!-- END -->" ++ NL ++ "bye".

Definition three_images : Dir := {|
  relative_path := "nature";
  entries := [("b.png", File ""); ("a.jpg", File ""); ("c.JPG", File "")]
|}.

Definition hidden_jpg : Dir := {|
  relative_path := "nature";
  entries := [(".jpg", File ""); ("a.tar.jpg", File "")]
|}.

Definition plain_dir : Dir := {|
  relative_path := "nature";
  entries := [("sea.jpg", File ""); ("README.md", File plain_readme);
              ("hill.png", File "")]
|}.

Definition inverted_dir : Dir := {|
  relative_path := "nature";
  entries := [("README.md", File inverted_readme); ("sea.jpg", File "")]
|}.

(** ** The README as a file

    [process_directory] above works on the text of the README.  On disk the
    README is a sequence of bytes: [Path.read_text(encoding="utf-8")]
    decodes it and turns every CRLF and every lone CR into LF, and
    [Path.write_text(..., encoding="utf-8")] truncates the file, encodes the
    text and writes LF as the line separator of the platform.  In
    [process_directory_io] the content of a [File] is the bytes on disk.
    A text that is not valid UTF-8 stands for a [str] with lone surrogates,
    as [os.listdir] produces for a file name that is not valid UTF-8; such a
    text cannot be encoded. *)
Definition CR : string := String "013"%char EmptyString.

Definition byte_in (c : ascii) (lo hi : N) : bool :=
  ((lo <=? N_of_ascii c) && (N_of_ascii c <=? hi))%N.

(** Well-formed UTF-8, as the strict decoder accepts it. *)
Fixpoint utf8_valid (s : string) : bool :=
  match s with
  | EmptyString => true
  | String c0 s0 =>
      if byte_in c0 0 127 then utf8_valid s0
      else if byte_in c0 194 223 then
        match s0 with
        | String c1 s1 => byte_in c1 128 191 && utf8_valid s1
        | _ => false
        end
      else if byte_in c0 224 239 then
        match s0 with
        | String c1 (String c2 s2) =>
            (if byte_in c0 224 224 then byte_in c1 160 191
             else if byte_in c0 237 237 then byte_in c1 128 159
             else byte_in c1 128 191)
            && byte_in c2 128 191 && utf8_valid s2
        | _ => false
        end
      else if byte_in c0 240 244 then
        match s0 with
        | String c1 (String c2 (String c3 s3)) =>
            (if byte_in c0 240 240 then byte_in c1 144 191
             else if byte_in c0 244 244 then byte_in c1 128 143
             else byte_in c1 128 191)
            && byte_in c2 128 191 && byte_in c3 128 191 && utf8_valid s3
        | _ => false
        end
      else false
  end.

(** Universal newlines on reading: CRLF and a lone CR become LF. *)
Fixpoint universal_newlines (s : string) : string :=
  match s with
  | EmptyString => EmptyString
  | String c s' =>
      if Ascii.eqb c "013" then
        match s' with
        | String c' s'' =>
            if Ascii.eqb c' "010" then String "010" (universal_newlines s'')
            else String "010" (universal_newlines s')
        | EmptyString => String "010" EmptyString
        end
      else String c (universal_newlines s')
  end.

(** [os.linesep] *)
Inductive platform : Type := Posix | Windows.

Definition linesep (p : platform) : string :=
  match p with Posix => NL | Windows => CR ++ NL end.

(** Newline translation on writing: LF becomes the line separator. *)
Fixpoint write_newlines (p : platform) (s : string) : string :=
  match s with
  | EmptyString => EmptyString
  | String c s' =>
      if Ascii.eqb c "010" then linesep p ++ write_newlines p s'
      else String c (write_newlines p s')
  end.

(** The text that [read_text] returns for the bytes of a file. *)
Definition read_text (bytes : string) : result string :=
  if utf8_valid bytes then Ok (universal_newlines bytes)
  else Raise UnicodeDecodeError.

(** The bytes that [write_text] writes for a text. *)
Definition encode_text (p : platform) (data : string) : result string :=
  if utf8_valid data then Ok (write_newlines p data)
  else Raise UnicodeEncodeError.

(** The directory after the call: the call returned, or an exception left
    it. *)
Inductive outcome : Type :=
  | Returned (directory : Dir)
  | Failed (e : exn) (directory : Dir).

Definition process_directory_io {U : Unicode} (p : platform)
  (self : TableGenerator) (directory : Dir) : outcome :=
  match lookup README_NAME (entries directory) with
  | None => Returned directory
  | Some Directory => Failed IsADirectoryError directory
  | Some (File bytes) =>
      match read_text bytes with
      | Raise e => Failed e directory
      | Ok content =>
          let '(found, before_text, _, after_text) :=
            find_readme_with_markers self content in
          if negb found then Returned directory
          else
            let image_files := find_image_files self directory in
            let base_path :=
              "/" ++ wallpapers_dir_name self ++ "/"
              ++ relative_path directory in
            let table := generate_table self image_files base_path in
            let new_generated_block := build_generated_block self table in
            let new_content :=
              before_text ++ new_generated_block ++ after_text in
            match encode_text p new_content with
            | Ok written =>
                Returned {| relative_path := relative_path directory;
                            entries := write_text README_NAME written
                                         (entries directory) |}
            | Raise e =>
                Failed e {| relative_path := relative_path directory;
                            entries := write_text README_NAME ""
                                         (entries directory) |}
            end
      end
  end.

(** Equality of two texts up to the case of the letters A to Z. *)
Definition same_letter (a b : ascii) : bool :=
  let m := N_of_ascii a in
  let n := N_of_ascii b in
  ((m =? n)
   || ((65 <=? m) && (m <=? 90) && (n =? m + 32))
   || ((65 <=? n) && (n <=? 90) && (m =? n + 32)))%N.

Fixpoint equal_ignoring_case (s t : string) : bool :=
  match s, t with
  | EmptyString, EmptyString => true
  | String a s', String b t' => same_letter a b && equal_ignoring_case s' t'
  | _, _ => false
  end.

(** A README with Windows line endings. *)
Definition crlf_readme : string :=
  "# Nature" ++ CR ++ NL ++ "<!-- BEGIN -->old<!-- END -->" ++ CR ++ NL
  ++ "bye".

Definition crlf_dir : Dir := {|
  relative_path := "nature";
  entries := [("README.md", File crlf_readme); ("sea.jpg", File "")]
|}.

(** A directory with an image file whose name is not valid UTF-8. *)
Definition bad_name_dir : Dir := {|
  relative_path := "nature";
  entries := [("README.md", File plain_readme);
              (String "255"%char ".jpg", File "")]
|}.

(** * Facts about the string primitives *)

Section StringFacts.

Lemma append_assoc (a b c : string) : (a ++ b) ++ c = a ++ b ++ c.
Proof. induction a as [|x a IH]; simpl; [reflexivity | now rewrite IH]. Qed.

Lemma length_append (a b : string) :
  String.length (a ++ b) = (String.length a + String.length b)%nat.
Proof. induction a as [|x a IH]; simpl; [reflexivity | now rewrite IH]. Qed.

Lemma len_append (a b : string) : len (a ++ b) = len a + len b.
Proof. unfold len. rewrite length_append. lia. Qed.

Lemma len_nonneg (s : string) : 0 <= len s.
Proof. unfold len. lia. Qed.

Lemma take_drop (n : nat) (s : string) : take n s ++ drop n s = s.
Proof.
  revert s. induction n as [|n IH]; intros [|c s]; simpl; try reflexivity.
  now rewrite IH.
Qed.

Lemma take_all (n : nat) (s : string) :
  (String.length s <= n)%nat -> take n s = s.
Proof.
  revert s. induction n as [|n IH]; intros [|c s]; simpl; intros H;
    try reflexivity; try lia.
  rewrite IH by lia. reflexivity.
Qed.

Lemma length_take (n : nat) (s : string) :
  String.length (take n s) = Nat.min n (String.length s).
Proof.
  revert s. induction n as [|n IH]; intros [|c s]; simpl; try reflexivity.
  now rewrite IH.
Qed.

Lemma length_drop (n : nat) (s : string) :
  String.length (drop n s) = (String.length s - n)%nat.
Proof.
  revert s. induction n as [|n IH]; intros [|c s]; simpl; try reflexivity.
  apply IH.
Qed.

Lemma take_append (a b : string) : take (String.length a) (a ++ b) = a.
Proof. induction a as [|x a IH]; simpl; [now destruct b | now rewrite IH]. Qed.

Lemma drop_append (a b : string) : drop (String.length a) (a ++ b) = b.
Proof. induction a as [|x a IH]; simpl; [reflexivity | exact IH]. Qed.

Lemma drop_drop (n m : nat) (s : string) : drop n (drop m s) = drop (m + n) s.
Proof.
  revert s. induction m as [|m IH]; intros s; simpl; [reflexivity|].
  destruct s as [|c s]; [now destruct n | apply IH].
Qed.

Lemma drop_append_le (n : nat) (a b : string) :
  (n <= String.length a)%nat -> drop n (a ++ b) = drop n a ++ b.
Proof.
  revert a. induction n as [|n IH]; intros [|c a]; simpl; intros H;
    try reflexivity; try lia.
  apply IH. lia.
Qed.

(** A prefix test succeeds exactly on the strings that start with the
    pattern. *)
Lemma prefix_iff (p s : string) :
  String.prefix p s = true <-> exists r, s = p ++ r.
Proof.
  revert s. induction p as [|a p IH]; intros s; simpl.
  - split; [intros _; now exists s | now destruct s].
  - destruct s as [|b s]; simpl.
    + split; [discriminate | intros [r H]; discriminate].
    + destruct (ascii_dec a b) as [->|Hne].
      * rewrite IH. split; intros [r H]; exists r; [now rewrite H|].
        now injection H.
      * split; [discriminate|]. intros [r H]. injection H as H1 _.
        now elim Hne.
Qed.

Lemma prefix_append (p r : string) : String.prefix p (p ++ r) = true.
Proof. apply prefix_iff. now exists r. Qed.

Lemma prefix_length (p s : string) :
  String.prefix p s = true -> (String.length p <= String.length s)%nat.
Proof.
  intros H. apply prefix_iff in H as [r ->]. rewrite length_append. lia.
Qed.

(** A pattern that starts an extension of [s] and fits into [s] starts [s]. *)
Lemma prefix_shorten (p s t : string) :
  String.prefix p (s ++ t) = true ->
  (String.length p <= String.length s)%nat ->
  String.prefix p s = true.
Proof.
  revert s. induction p as [|a p IH]; intros s H Hl; [now destruct s|].
  destruct s as [|b s]; simpl in *; [lia|].
  destruct (ascii_dec a b); [|discriminate]. apply IH; [exact H | lia].
Qed.

Lemma prefix_extend (p s t : string) :
  String.prefix p s = true -> String.prefix p (s ++ t) = true.
Proof.
  intros H. apply prefix_iff in H as [r ->]. rewrite append_assoc.
  apply prefix_append.
Qed.

End StringFacts.

(** * Facts about [find] *)

Section FindFacts.

Lemma find_eq (s sub : string) :
  find s sub =
  if String.prefix sub s then 0
  else match s with
       | EmptyString => -1
       | String _ s' =>
           if find s' sub =? -1 then -1 else find s' sub + 1
       end.
Proof. destruct s; reflexivity. Qed.

(** The result is [-1] or the offset of a window that lies inside [s]. *)
Lemma find_range (s sub : string) :
  find s sub = -1 \/ (0 <= find s sub /\ find s sub + len sub <= len s).
Proof.
  induction s as [|c s IH]; rewrite find_eq.
  - destruct (String.prefix sub "") eqn:E; [right | now left].
    apply prefix_length in E. unfold len. simpl in *. lia.
  - destruct (String.prefix sub (String c s)) eqn:E.
    + right. apply prefix_length in E. unfold len. lia.
    + destruct (find s sub =? -1) eqn:F; [now left | right].
      apply Z.eqb_neq in F. unfold len in *. simpl String.length. lia.
Qed.

Lemma find_nonneg (s sub : string) : find s sub <> -1 -> 0 <= find s sub.
Proof. destruct (find_range s sub); lia. Qed.

(** The pattern does occur at the offset returned. *)
Lemma find_prefix (s sub : string) :
  find s sub <> -1 ->
  String.prefix sub (drop (Z.to_nat (find s sub)) s) = true.
Proof.
  induction s as [|c s IH]; rewrite find_eq.
  - destruct (String.prefix sub "") eqn:E; [intros _; exact E | easy].
  - destruct (String.prefix sub (String c s)) eqn:E; [intros _; exact E|].
    destruct (find s sub =? -1) eqn:F; [easy|]. intros _.
    apply Z.eqb_neq in F. pose proof (find_nonneg _ _ F).
    replace (Z.to_nat (find s sub + 1)) with (S (Z.to_nat (find s sub))) by lia.
    simpl. auto.
Qed.

(** No occurrence starts before the offset returned. *)
Lemma find_least (s sub : string) (n : nat) :
  String.prefix sub (drop n s) = true ->
  0 <= find s sub <= Z.of_nat n.
Proof.
  revert n. induction s as [|c s IH]; intros n H; rewrite find_eq.
  - assert (drop n "" = "") as E by now destruct n.
    rewrite E in H. rewrite H. lia.
  - destruct (String.prefix sub (String c s)) eqn:E; [lia|].
    destruct n as [|n]; [change (drop 0 (String c s)) with (String c s) in H; congruence|].
    change (drop (S n) (String c s)) with (drop n s) in H. apply IH in H.
    destruct (find s sub =? -1) eqn:F; [apply Z.eqb_eq in F|]; lia.
Qed.

Lemma find_unique (s sub : string) (n : nat) :
  String.prefix sub (drop n s) = true ->
  (n <= String.length s)%nat ->
  (forall m, (m < n)%nat -> String.prefix sub (drop m s) = false) ->
  find s sub = Z.of_nat n.
Proof.
  intros H Hn Hmin. pose proof (find_least _ _ _ H) as [L U].
  destruct (Z.eq_dec (find s sub) (Z.of_nat n)) as [|Hne]; [assumption|].
  assert (find s sub <> -1) as Hf by lia.
  apply find_prefix in Hf. rewrite Hmin in Hf by lia. discriminate.
Qed.

(** The text splits around the first occurrence. *)
Lemma find_split (s sub : string) :
  find s sub <> -1 ->
  s = take (Z.to_nat (find s sub)) s ++ sub
      ++ drop (Z.to_nat (find s sub + len sub)) s.
Proof.
  intros Hf. pose proof (find_nonneg _ _ Hf) as Hp.
  pose proof (find_prefix _ _ Hf) as H. apply prefix_iff in H as [r Hr].
  rewrite <- (take_drop (Z.to_nat (find s sub)) s) at 1. f_equal.
  rewrite Hr at 1. f_equal.
  unfold len. rewrite Z2Nat.inj_add, Nat2Z.id, <- drop_drop, Hr by lia.
  symmetry. apply drop_append.
Qed.

Lemma occurs_find (sub s : string) : occurs sub s -> find s sub <> -1.
Proof.
  intros (a & b & ->).
  assert (String.prefix sub (drop (String.length a) (a ++ sub ++ b)) = true) as H
    by (rewrite drop_append; apply prefix_append).
  apply find_least in H. lia.
Qed.

Lemma find_occurs (sub s : string) : find s sub <> -1 -> occurs sub s.
Proof. intros H. apply find_split in H. red. eauto. Qed.

(** [find] answers [-1] exactly when the pattern does not occur. *)
Lemma find_none_iff (sub s : string) : find s sub = -1 <-> ~ occurs sub s.
Proof.
  split.
  - intros H Hocc. now apply occurs_find in Hocc.
  - intros H. destruct (Z.eq_dec (find s sub) (-1)); [assumption|].
    elim H. now apply find_occurs.
Qed.

(** The first occurrence inside [s] is still the first one in any
    extension of [s]. *)
Lemma find_append_found (s t sub : string) :
  find s sub <> -1 -> find (s ++ t) sub = find s sub.
Proof.
  intros Hf. pose proof (find_nonneg _ _ Hf) as Hp.
  destruct (find_range s sub) as [|[_ Hr]]; [contradiction|].
  rewrite <- (Z2Nat.id (find s sub)) at 1 by assumption.
  unfold len in Hr.
  apply find_unique.
  - rewrite drop_append_le by lia. apply prefix_extend, find_prefix, Hf.
  - rewrite length_append. lia.
  - intros m Hm. destruct (String.prefix sub (drop m (s ++ t))) eqn:E;
      [|reflexivity].
    rewrite drop_append_le in E by lia.
    apply prefix_shorten in E; [|rewrite length_drop; lia].
    apply find_least in E. lia.
Qed.

(** The offset of the first occurrence, from a split whose left part with
    the pattern holds no earlier occurrence. *)
Lemma find_at_split (a sub b : string) :
  find (a ++ sub) sub = len a -> find (a ++ sub ++ b) sub = len a.
Proof.
  intros H. rewrite <- append_assoc, find_append_found; [exact H|].
  rewrite H. pose proof (len_nonneg a). lia.
Qed.

(** The first occurrence inside an extension of [s] that ends within [s]
    is the first occurrence in [s]. *)
Lemma find_restrict (s t sub : string) :
  find (s ++ t) sub <> -1 ->
  find (s ++ t) sub + len sub <= len s ->
  find s sub = find (s ++ t) sub.
Proof.
  intros Hf Hl. pose proof (find_nonneg _ _ Hf) as Hp.
  pose proof (len_nonneg sub) as Hs. unfold len in *.
  rewrite <- (Z2Nat.id (find (s ++ t) sub)) at 1 by assumption.
  apply find_unique.
  - pose proof (find_prefix _ _ Hf) as H.
    rewrite drop_append_le in H by lia.
    apply prefix_shorten in H; [assumption | rewrite length_drop; lia].
  - lia.
  - intros m Hm.
    destruct (String.prefix sub (drop m s)) eqn:E; [|reflexivity].
    apply (prefix_extend _ _ t) in E. rewrite <- drop_append_le in E by lia.
    apply find_least in E. lia.
Qed.

End FindFacts.

(** * The marker locator *)

Section Locator.

Variable self : TableGenerator.

Let om := opening_marker self.
Let cm := closing_marker self.

Lemma slice_inside (s : string) (a b : Z) :
  0 <= a <= len s -> 0 <= b <= len s ->
  slice s a b = take (Z.to_nat (b - a)) (drop (Z.to_nat a) s).
Proof.
  intros Ha Hb. unfold slice, clamp.
  destruct (a <? 0) eqn:Ea; [apply Z.ltb_lt in Ea; lia|].
  destruct (b <? 0) eqn:Eb; [apply Z.ltb_lt in Eb; lia|].
  now rewrite !Z.min_l by lia.
Qed.

Lemma slice_to_inside (s : string) (b : Z) :
  0 <= b <= len s -> slice_to s b = take (Z.to_nat b) s.
Proof.
  intros Hb. unfold slice_to. pose proof (len_nonneg s).
  rewrite slice_inside by lia. now rewrite Z.sub_0_r.
Qed.

Lemma slice_from_inside (s : string) (a : Z) :
  0 <= a <= len s -> slice_from s a = drop (Z.to_nat a) s.
Proof.
  intros Ha. unfold slice_from. rewrite slice_inside by lia.
  apply take_all. rewrite length_drop. unfold len in *. lia.
Qed.

(** The result in terms of the two offsets, when both markers are there. *)
Lemma locate_found (content : string) :
  find content om <> -1 -> find content cm <> -1 ->
  find_readme_with_markers self content =
    (true,
     take (Z.to_nat (find content om)) content,
     take (Z.to_nat (find content cm + len cm - find content om))
          (drop (Z.to_nat (find content om)) content),
     drop (Z.to_nat (find content cm + len cm)) content).
Proof.
  intros Ho Hc. unfold find_readme_with_markers. fold om cm.
  destruct (find_range content om) as [|[Ho1 Ho2]]; [contradiction|].
  destruct (find_range content cm) as [|[Hc1 Hc2]]; [contradiction|].
  pose proof (len_nonneg om). pose proof (len_nonneg cm).
  apply Z.eqb_neq in Ho, Hc. rewrite Ho, Hc. simpl.
  rewrite slice_to_inside, slice_inside, slice_from_inside by lia.
  reflexivity.
Qed.

Lemma locate_not_found (content : string) :
  find content om = -1 \/ find content cm = -1 ->
  find_readme_with_markers self content = (false, "", "", "").
Proof.
  intros H. unfold find_readme_with_markers. fold om cm.
  destruct H as [H|H]; rewrite H; [reflexivity|].
  now rewrite orb_true_r.
Qed.

Lemma locate_flag (content : string) :
  fst (fst (fst (find_readme_with_markers self content))) = true ->
  find content om <> -1 /\ find content cm <> -1.
Proof.
  unfold find_readme_with_markers. fold om cm.
  destruct (find content om =? -1) eqn:Eo; [discriminate|].
  destruct (find content cm =? -1) eqn:Ec; [discriminate|].
  apply Z.eqb_neq in Eo, Ec. auto.
Qed.

(** Three consecutive slices of a text at ordered offsets give it back. *)
Lemma three_slices (s : string) (i j : nat) :
  (i <= j)%nat -> take i s ++ take (j - i) (drop i s) ++ drop j s = s.
Proof.
  intros H. replace (drop j s) with (drop (j - i) (drop i s))
    by (rewrite drop_drop; f_equal; lia).
  now rewrite !take_drop.
Qed.

(** When the second offset lies before the first, the middle slice is empty
    and the outer two overlap: the concatenation is longer than the text. *)
Lemma overlapping_slices (s : string) (i j : nat) :
  (j < i)%nat -> (i <= String.length s)%nat ->
  (String.length (take i s ++ take (j - i) (drop i s) ++ drop j s)
     > String.length s)%nat.
Proof.
  intros H Hi. rewrite !length_append, !length_take, !length_drop. lia.
Qed.

End Locator.

(** * Properties of the marker locator *)

(** C1, at the document whose closing marker comes first: the locator
    reports Found, the block is empty, and prefix and suffix overlap, so
    the three parts do not give the text back. *)
Lemma locate_round_trip_inverted :
  find_readme_with_markers sample inverted_readme
    = (true, "<!-- END -->old", "", "old<!-- BEGIN -->")
  /\ "<!-- END -->old" ++ "" ++ "old<!-- BEGIN -->" <> inverted_readme.
Proof.
  split; [reflexivity|]. apply String.eqb_neq. reflexivity.
Qed.

(** C1 (amended): whenever the locator reports Found and the first occurrence
    of the opening marker starts no later than the first occurrence of the
    closing marker ends, prefix + block + suffix is the text. *)
Theorem locate_round_trip
  (self : TableGenerator) (content before block after : string) :
  find_readme_with_markers self content = (true, before, block, after) ->
  find content (opening_marker self)
    <= find content (closing_marker self) + len (closing_marker self) ->
  before ++ block ++ after = content.
Proof.
  intros H Hord.
  assert (fst (fst (fst (find_readme_with_markers self content))) = true) as F
    by now rewrite H.
  apply locate_flag in F as [Ho Hc]. rewrite locate_found in H by assumption.
  injection H as <- <- <-.
  pose proof (find_nonneg _ _ Ho). pose proof (find_nonneg _ _ Hc).
  pose proof (len_nonneg (closing_marker self)).
  rewrite Z2Nat.inj_sub by lia. apply three_slices. lia.
Qed.

Lemma locate_round_trip_witness :
  "# Nature" ++ NL ++ "<!-- BEGIN -->old<!-- END -->" ++ NL ++ "bye"
  = plain_readme.
Proof.
  apply (locate_round_trip sample plain_readme
           ("# Nature" ++ NL) "<!-- BEGIN -->old<!-- END -->" (NL ++ "bye")).
  - reflexivity.
  - vm_compute. discriminate.
Defined.

(** The order of the two offsets is also necessary for the round trip. *)
Lemma round_trip_needs_order
  (self : TableGenerator) (content before block after : string) :
  find_readme_with_markers self content = (true, before, block, after) ->
  before ++ block ++ after = content ->
  find content (opening_marker self)
    <= find content (closing_marker self) + len (closing_marker self).
Proof.
  intros H Hrt.
  assert (fst (fst (fst (find_readme_with_markers self content))) = true) as F
    by now rewrite H.
  apply locate_flag in F as [Ho Hc]. rewrite locate_found in H by assumption.
  injection H as <- <- <-.
  pose proof (find_nonneg _ _ Ho). pose proof (find_nonneg _ _ Hc).
  pose proof (len_nonneg (closing_marker self)).
  destruct (find_range content (opening_marker self)) as [|[_ Hr]];
    [contradiction|].
  destruct (Z_le_gt_dec (find content (opening_marker self))
              (find content (closing_marker self) + len (closing_marker self)))
    as [|Hgt]; [assumption|exfalso].
  apply (f_equal String.length) in Hrt.
  rewrite Z2Nat.inj_sub in Hrt by lia.
  pose proof (overlapping_slices content
                (Z.to_nat (find content (opening_marker self)))
                (Z.to_nat (find content (closing_marker self)
                           + len (closing_marker self)))) as Hov.
  unfold len in *. lia.
Qed.

(** C2, at a document whose prose quotes the opening marker ahead of the
    block: neither marker occurs in the middle part, yet the prefix returned
    is not the part in front of the block. *)
Lemma locate_span_quoted_marker :
  let A := quoting_prose in
  let M := "old" in
  let B := "bye" in
  ~ occurs (opening_marker sample) M /\ ~ occurs (closing_marker sample) M /\
  find_readme_with_markers sample
    (A ++ opening_marker sample ++ M ++ closing_marker sample ++ B)
  <> (true, A, opening_marker sample ++ M ++ closing_marker sample, B).
Proof.
  cbv zeta. repeat split.
  - apply find_none_iff. reflexivity.
  - apply find_none_iff. reflexivity.
  - vm_compute. discriminate.
Qed.

(** C2 (amended): for every decomposition text = A + open + M + close + B in
    which the opening marker occurs in A + open only as its last characters
    and the closing marker occurs in A + open + M + close only as its last
    characters, the locator returns prefix = A, block = open + M + close and
    suffix = B. *)
Theorem locate_span (self : TableGenerator) (A M B : string) :
  find (A ++ opening_marker self) (opening_marker self) = len A ->
  find (A ++ opening_marker self ++ M ++ closing_marker self)
       (closing_marker self)
    = len (A ++ opening_marker self ++ M) ->
  find_readme_with_markers self
    (A ++ opening_marker self ++ M ++ closing_marker self ++ B)
  = (true, A, opening_marker self ++ M ++ closing_marker self, B).
Proof.
  set (om := opening_marker self). set (cm := closing_marker self).
  intros Ho Hc.
  assert (find (A ++ om ++ M ++ cm ++ B) om = len A) as Ho'
    by now apply find_at_split.
  assert (find (A ++ om ++ M ++ cm ++ B) cm = len (A ++ om ++ M)) as Hc'.
  { replace (A ++ om ++ M ++ cm ++ B) with ((A ++ om ++ M) ++ cm ++ B)
      by now rewrite !append_assoc.
    apply find_at_split. now rewrite !append_assoc. }
  pose proof (len_nonneg A). pose proof (len_nonneg (A ++ om ++ M)).
  rewrite locate_found; fold om cm; rewrite ?Ho', ?Hc'; try lia.
  rewrite !len_append.
  replace (len A + (len om + len M) + len cm - len A)
    with (len (om ++ M ++ cm)) by (rewrite !len_append; lia).
  replace (len A + (len om + len M) + len cm)
    with (len (A ++ om ++ M ++ cm)) by (rewrite !len_append; lia).
  unfold len. rewrite !Nat2Z.id.
  rewrite take_append, drop_append.
  replace (om ++ M ++ cm ++ B) with ((om ++ M ++ cm) ++ B)
    by now rewrite !append_assoc.
  rewrite take_append.
  replace (A ++ (om ++ M ++ cm) ++ B) with ((A ++ om ++ M ++ cm) ++ B)
    by now rewrite !append_assoc.
  now rewrite drop_append.
Qed.

Lemma locate_span_witness :
  find_readme_with_markers sample plain_readme
  = (true, "# Nature" ++ NL, "<!-- BEGIN -->old<!-- END -->", NL ++ "bye").
Proof.
  apply (locate_span sample ("# Nature" ++ NL) "old" (NL ++ "bye"));
    reflexivity.
Defined.

(** C3: the locator answers NotFound exactly when one of the two markers does
    not occur in the text; in particular it answers Found when both occur,
    also when the closing marker's first occurrence comes first. *)
Theorem locate_not_found_iff (self : TableGenerator) (content : string) :
  (find_readme_with_markers self content = (false, "", "", "")
   <-> ~ occurs (opening_marker self) content
       \/ ~ occurs (closing_marker self) content)
  /\ (fst (fst (fst (find_readme_with_markers self content))) = false
      <-> ~ occurs (opening_marker self) content
          \/ ~ occurs (closing_marker self) content)
  /\ (occurs (opening_marker self) content ->
      occurs (closing_marker self) content ->
      find content (closing_marker self) < find content (opening_marker self) ->
      fst (fst (fst (find_readme_with_markers self content))) = true).
Proof.
  assert (occurs (opening_marker self) content ->
          occurs (closing_marker self) content ->
          fst (fst (fst (find_readme_with_markers self content))) = true) as Hf.
  { intros Ho Hc. apply occurs_find in Ho, Hc.
    now rewrite locate_found. }
  assert (~ occurs (opening_marker self) content
          \/ ~ occurs (closing_marker self) content ->
          find_readme_with_markers self content = (false, "", "", "")) as Hn.
  { intros H. apply locate_not_found.
    destruct H as [H|H]; apply find_none_iff in H; auto. }
  repeat split.
  - intros H.
    destruct (Z.eq_dec (find content (opening_marker self)) (-1)) as [E|E];
      [left; now apply find_none_iff|].
    destruct (Z.eq_dec (find content (closing_marker self)) (-1)) as [E'|E'];
      [right; now apply find_none_iff|].
    rewrite locate_found in H by assumption. discriminate.
  - exact Hn.
  - intros H.
    destruct (Z.eq_dec (find content (opening_marker self)) (-1)) as [E|E];
      [left; now apply find_none_iff|].
    destruct (Z.eq_dec (find content (closing_marker self)) (-1)) as [E'|E'];
      [right; now apply find_none_iff|].
    rewrite locate_found in H by assumption. discriminate.
  - intros H. now rewrite (Hn H).
  - intros Ho Hc _. now apply Hf.
Qed.

Lemma locate_not_found_iff_witness :
  fst (fst (fst (find_readme_with_markers sample inverted_readme))) = true.
Proof.
  apply (proj2 (proj2 (locate_not_found_iff sample inverted_readme))).
  - exists "<!-- END -->old", "". reflexivity.
  - exists "", "old<!-- BEGIN -->". reflexivity.
  - vm_compute. reflexivity.
Defined.

(** * The table builder *)

Section TableBuilder.

Variable self : TableGenerator.
Variable base_path : string.

Let cols := columns self.
Let cell := cell_text base_path.

Hypothesis cols_pos : 1 <= cols.

Let full := full_row cols.

(** The padding loop runs to completion within its fuel and appends the
    missing number of blank cells. *)
Lemma pad_loop_enough (fuel : nat) (row : list string) :
  cols - Z.of_nat (length row) <= Z.of_nat fuel ->
  pad_loop fuel cols row
  = (row ++ repeat " " (Z.to_nat (cols - Z.of_nat (length row))))%list.
Proof.
  revert row. induction fuel as [|fuel IH]; intros row Hf; simpl.
  - replace (Z.to_nat (cols - Z.of_nat (length row))) with O by lia.
    now rewrite app_nil_r.
  - destruct (Z.of_nat (length row) <? cols) eqn:E.
    + apply Z.ltb_lt in E. rewrite IH by (rewrite length_app; simpl; lia).
      rewrite length_app. simpl length.
      replace (Z.to_nat (cols - Z.of_nat (length row)))
        with (S (Z.to_nat (cols - Z.of_nat (length row + 1)%nat))) by lia.
      simpl. now rewrite <- app_assoc.
    + apply Z.ltb_ge in E.
      replace (Z.to_nat (cols - Z.of_nat (length row))) with O by lia.
      now rewrite app_nil_r.
Qed.

Lemma pad_row_spec (row : list string) :
  pad_row cols row
  = (row ++ repeat " " (Z.to_nat (cols - Z.of_nat (length row))))%list.
Proof. apply pad_loop_enough. lia. Qed.

(** Invariant of the loop over the image files: the rows emitted so far are
    full, the row under construction is not, and together they hold the
    cells seen so far, in order. *)
Lemma table_loop (image_files : list string) :
  forall (grid : list (list string)) (current_row : list string),
    Forall full grid ->
    Z.of_nat (length current_row) < cols ->
    exists grid' current_row',
      fold_left (table_step self base_path) image_files
                (map row_text grid, current_row)
      = (map row_text grid', current_row')
      /\ Forall full grid'
      /\ Z.of_nat (length current_row') < cols
      /\ (concat grid' ++ current_row'
          = concat grid ++ current_row ++ map cell image_files)%list.
Proof.
  induction image_files as [|p ps IH]; intros grid row Hg Hr.
  - exists grid, row. simpl. now rewrite app_nil_r.
  - simpl fold_left. fold cols. fold (cell p).
    destruct (Z.of_nat (length (row ++ [cell p])) =? cols) eqn:E.
    + apply Z.eqb_eq in E.
      replace (map row_text grid ++ [row_text (row ++ [cell p])])%list
        with (map row_text (grid ++ [row ++ [cell p]])%list)
        by now rewrite map_app.
      destruct (IH (grid ++ [row ++ [cell p]])%list []) as (g & r & H1 & H2 & H3 & H4).
      * apply Forall_app. split; [assumption|]. now constructor.
      * simpl. lia.
      * exists g, r. repeat split; try assumption.
        rewrite H4, concat_app. simpl. now rewrite !app_nil_r, <- !app_assoc.
    + apply Z.eqb_neq in E. rewrite length_app in *. simpl length in *.
      destruct (IH grid (row ++ [cell p])%list) as (g & r & H1 & H2 & H3 & H4).
      * assumption.
      * rewrite length_app. simpl. lia.
      * exists g, r. repeat split; try assumption.
        rewrite H4. now rewrite <- !app_assoc.
Qed.

Lemma length_concat_full (grid : list (list string)) :
  Forall full grid ->
  Z.of_nat (length (concat grid)) = cols * Z.of_nat (length grid).
Proof.
  induction 1 as [|row grid Hrow _ IH]; simpl; [lia|].
  rewrite length_app. unfold full, full_row in Hrow. lia.
Qed.

Lemma ceil_div_exact (n : Z) : 0 <= n -> ceil_div (cols * n) cols = n.
Proof.
  intros Hn. unfold ceil_div. symmetry.
  apply (Z.div_unique_pos _ _ _ (cols - 1)); lia.
Qed.

Lemma ceil_div_partial (n r : Z) :
  0 <= n -> 0 < r < cols -> ceil_div (cols * n + r) cols = n + 1.
Proof.
  intros Hn Hr. unfold ceil_div. symmetry.
  apply (Z.div_unique_pos _ _ _ (r - 1)); lia.
Qed.

(** The rows that [_generate_table] joins, as a grid of cells. *)
Lemma table_rows_grid (image_files : list string) :
  let L := Z.of_nat (length image_files) in
  exists grid,
    table_rows self image_files base_path = map row_text grid
    /\ Z.of_nat (length grid) = ceil_div L cols
    /\ Forall full grid
    /\ 0 <= cols * ceil_div L cols - L < cols
    /\ concat grid
       = (map cell image_files
            ++ repeat " " (Z.to_nat (cols * ceil_div L cols - L)))%list.
Proof.
  intros L. unfold table_rows.
  destruct (table_loop image_files [] []) as (g & r & H1 & H2 & H3 & H4);
    [constructor | simpl; lia |].
  simpl map in H1. rewrite H1. simpl in H4.
  assert (cols * Z.of_nat (length g) + Z.of_nat (length r) = L) as HL.
  { unfold L. rewrite <- (length_map cell image_files), <- H4, length_app.
    rewrite <- length_concat_full by assumption. lia. }
  destruct r as [|c r].
  - simpl in HL. rewrite Z.add_0_r in HL.
    assert (ceil_div L cols = Z.of_nat (length g)) as Hc
      by (rewrite <- HL; apply ceil_div_exact; lia).
    exists g. rewrite Hc, HL, Z.sub_diag. simpl.
    rewrite app_nil_r in *. repeat split; try assumption; lia.
  - fold cols. rewrite pad_row_spec.
    set (row := c :: r) in *.
    assert (0 < Z.of_nat (length row)) as Hpos by (unfold row; simpl; lia).
    assert (ceil_div L cols = Z.of_nat (length g) + 1) as Hc
      by (rewrite <- HL; apply ceil_div_partial; lia).
    exists (g ++ [row ++ repeat " " (Z.to_nat (cols - Z.of_nat (length row)))])%list.
    rewrite Hc.
    replace (cols * (Z.of_nat (length g) + 1) - L)
      with (cols - Z.of_nat (length row)) by lia.
    repeat split; try lia.
    + now rewrite map_app.
    + rewrite length_app. simpl. lia.
    + apply Forall_app. split; [assumption|]. constructor; [|constructor].
      unfold full, full_row. rewrite length_app, repeat_length. lia.
    + rewrite concat_app. cbn [concat]. rewrite app_nil_r, app_assoc.
      now rewrite H4.
Qed.

Lemma row_text_pipe_row (row : list string) :
  row <> [] -> row_text row = pipe_row row.
Proof.
  intros H. unfold row_text, pipe_row. change "| " with ("|" ++ " ").
  rewrite append_assoc. f_equal.
  induction row as [|c [|c' row'] IH]; [contradiction | reflexivity |].
  change (join " | " (c :: c' :: row'))
    with (c ++ " | " ++ join " | " (c' :: row')).
  change (piped (c :: c' :: row')) with (" " ++ c ++ " |" ++ piped (c' :: row')).
  rewrite <- IH by discriminate.
  simpl. f_equal. rewrite !append_assoc. reflexivity.
Qed.

End TableBuilder.

(** The table of a non-empty item list, over the grid of its data rows. *)
Lemma generate_table_rows (self : TableGenerator) (base_path : string) :
  1 <= columns self ->
  forall image_files : list string,
    image_files <> [] ->
    exists grid : list (list string),
      generate_table self image_files base_path
        = row_text (replicate "" (columns self)) ++ NL
          ++ row_text (replicate ":---:" (columns self)) ++ NL
          ++ join NL (map row_text grid)
      /\ grid <> []
      /\ Forall (full_row (columns self)) grid
      /\ concat grid
         = (map (cell_text base_path) image_files
              ++ repeat " "
                   (Z.to_nat
                      (columns self
                       * ceil_div (Z.of_nat (length image_files)) (columns self)
                       - Z.of_nat (length image_files))))%list.
Proof.
  intros HC image_files Hne.
  destruct (table_rows_grid self base_path HC image_files)
    as (grid & H1 & H2 & H3 & H4 & H5).
  exists grid. repeat split; try assumption.
  - unfold generate_table. destruct image_files; [contradiction|].
    now rewrite H1.
  - intros ->. simpl in H2.
    assert (0 < Z.of_nat (length image_files))
      by (destruct image_files; [contradiction | simpl; lia]).
    nia.
Qed.

(** * Properties of the table builder *)

(** C4: for L >= 1 items and C >= 1 columns the data rows of the table are
    the rows of a grid with ceil(L / C) rows of exactly C cells each, whose
    cells read row by row are the cells of the items in input order followed
    by fewer than C padding cells; there is no padding when C divides L. *)
Theorem generate_table_packing
  (self : TableGenerator) (image_files : list string) (base_path : string) :
  let L := Z.of_nat (length image_files) in
  let C := columns self in
  1 <= L -> 1 <= C ->
  exists grid : list (list string),
    generate_table self image_files base_path
      = row_text (replicate "" C) ++ NL
        ++ row_text (replicate ":---:" C) ++ NL
        ++ join NL (map row_text grid)
    /\ Z.of_nat (length grid) = ceil_div L C
    /\ Forall (fun row => Z.of_nat (length row) = C) grid
    /\ 0 <= C * ceil_div L C - L < C
    /\ (L mod C = 0 -> C * ceil_div L C - L = 0)
    /\ concat grid
       = (map (cell_text base_path) image_files
            ++ repeat " " (Z.to_nat (C * ceil_div L C - L)))%list.
Proof.
  intros L C HL HC.
  destruct (table_rows_grid self base_path HC image_files)
    as (grid & H1 & H2 & H3 & H4 & H5).
  fold L C in H2, H4, H5. exists grid.
  split; [|repeat split; try assumption; try lia].
  - unfold generate_table. destruct image_files; [simpl in L; lia|].
    now rewrite H1.
  - intros Hm. apply Z.mod_divide in Hm; [|lia]. destruct Hm as [k Hk].
    assert (C * (ceil_div L C - k) < C) as Hlt by lia.
    assert (0 <= C * (ceil_div L C - k)) as Hge by lia.
    assert (ceil_div L C - k = 0) by nia. nia.
Qed.

Lemma generate_table_packing_witness :
  exists grid : list (list string),
    generate_table sample ["a.jpg"; "b.png"; "c.JPG"] "/wallpapers/nature"
      = row_text [""; ""] ++ NL ++ row_text [":---:"; ":---:"] ++ NL
        ++ join NL (map row_text grid)
    /\ length grid = 2%nat
    /\ concat grid
       = (map (cell_text "/wallpapers/nature") ["a.jpg"; "b.png"; "c.JPG"]
            ++ [" "])%list.
Proof.
  destruct (generate_table_packing sample ["a.jpg"; "b.png"; "c.JPG"]
              "/wallpapers/nature") as (grid & H1 & H2 & _ & _ & _ & H6).
  - vm_compute. discriminate.
  - vm_compute. discriminate.
  - exists grid. split; [exact H1|]. split; [|exact H6].
    apply Nat2Z.inj. exact H2.
Defined.

(** C5: for a non-empty item list and C >= 1, the table is, line by line, a
    hidden header row of C empty cells, a separator row of C cells [:---:],
    and the data rows; every row is a pipe followed by each cell between
    single spaces and a closing pipe; the cell of the item named N under the
    link-path prefix P is [[![preview](P/N)](P/N)]. *)
Theorem generate_table_format
  (self : TableGenerator) (image_files : list string) (base_path : string) :
  image_files <> [] -> 1 <= columns self ->
  exists (grid : list (list string)) (padding : nat),
    generate_table self image_files base_path
      = join NL (pipe_row (repeat "" (Z.to_nat (columns self)))
                 :: pipe_row (repeat ":---:" (Z.to_nat (columns self)))
                 :: map pipe_row grid)
    /\ Forall (fun row => Z.of_nat (length row) = columns self) grid
    /\ concat grid
       = (map (fun N => ("[![preview](" ++ base_path ++ "/" ++ N ++ ")]("
                         ++ base_path ++ "/" ++ N ++ ")")%string) image_files
            ++ repeat " " padding)%list.
Proof.
  intros Hne HC.
  destruct (generate_table_rows self base_path HC image_files Hne)
    as (grid & H1 & H2 & H3 & H4).
  exists grid, (Z.to_nat (columns self
                          * ceil_div (Z.of_nat (length image_files)) (columns self)
                          - Z.of_nat (length image_files))).
  split; [|split].
  - rewrite H1. unfold replicate.
    assert (forall x : string, repeat x (Z.to_nat (columns self)) <> []) as Hrep.
    { intros x. destruct (Z.to_nat (columns self)) eqn:E; [lia|discriminate]. }
    rewrite !row_text_pipe_row by apply Hrep.
    assert (map row_text grid = map pipe_row grid) as ->.
    { apply map_ext_in. intros row Hin. apply row_text_pipe_row.
      rewrite Forall_forall in H3. specialize (H3 row Hin).
      unfold full_row in H3. destruct row; [simpl in H3; lia | discriminate]. }
    destruct grid as [|row grid]; [contradiction|]. reflexivity.
  - exact H3.
  - rewrite H4. f_equal. apply map_ext. intros N. unfold cell_text.
    now rewrite !append_assoc.
Qed.

Lemma generate_table_format_witness :
  exists (grid : list (list string)) (padding : nat),
    generate_table sample ["a.jpg"; "b.png"; "c.JPG"] "/w"
      = join NL (pipe_row [""; ""] :: pipe_row [":---:"; ":---:"]
                 :: map pipe_row grid)
    /\ Forall (fun row => Z.of_nat (length row) = 2) grid
    /\ concat grid
       = (["[![preview](/w/a.jpg)](/w/a.jpg)";
           "[![preview](/w/b.png)](/w/b.png)";
           "[![preview](/w/c.JPG)](/w/c.JPG)"] ++ repeat " " padding)%list.
Proof.
  apply (generate_table_format sample ["a.jpg"; "b.png"; "c.JPG"] "/w").
  - discriminate.
  - vm_compute. discriminate.
Defined.


(** * Image enumeration *)

Section Enumeration.

Context {U : Unicode}.
Variable self : TableGenerator.

(** The enumeration loop keeps, in order, the names of the entries that
    pass the test. *)
Lemma image_loop (es : list (string * node)) (acc : list string) :
  fold_left (image_step self) es acc
  = (acc ++ map fst (filter (is_image self) es))%list.
Proof.
  revert acc. induction es as [|e es IH]; intros acc; simpl.
  - now rewrite app_nil_r.
  - rewrite IH. unfold image_step, is_image.
    destruct (is_file (snd e)); simpl; [|reflexivity].
    destruct (mem (lower (suffix (fst e))) (allowed_extensions self)); simpl;
      [now rewrite <- app_assoc | reflexivity].
Qed.

Lemma insert_by_name_perm (p : string) (l : list string) :
  Permutation (insert_by_name p l) (p :: l).
Proof.
  induction l as [|q l IH]; simpl; [reflexivity|].
  destruct (String.ltb q p); [|reflexivity].
  rewrite IH. apply perm_swap.
Qed.

Lemma sort_by_name_perm (l : list string) : Permutation (sort_by_name l) l.
Proof.
  induction l as [|p l IH]; simpl; [reflexivity|].
  rewrite insert_by_name_perm. now constructor.
Qed.

Lemma ltb_name_le (q p : string) : String.ltb q p = true -> name_le q p.
Proof.
  unfold String.ltb, name_le, String.leb.
  now destruct (String.compare q p).
Qed.

Lemma not_ltb_name_le (q p : string) : String.ltb q p = false -> name_le p q.
Proof.
  unfold String.ltb, name_le, String.leb.
  rewrite (String.compare_antisym p q).
  now destruct (String.compare q p).
Qed.

Lemma insert_by_name_sorted (p : string) (l : list string) :
  Sorted name_le l -> Sorted name_le (insert_by_name p l).
Proof.
  induction 1 as [|q l Hs IH Hq]; simpl; [repeat constructor|].
  destruct (String.ltb q p) eqn:E.
  - constructor; [assumption|].
    destruct l as [|r l]; simpl in *.
    + constructor. now apply ltb_name_le.
    + destruct (String.ltb r p); constructor;
        [now inversion Hq | now apply ltb_name_le].
  - constructor; [now constructor|]. constructor. now apply not_ltb_name_le.
Qed.

Lemma sort_by_name_sorted (l : list string) : Sorted name_le (sort_by_name l).
Proof.
  induction l as [|p l IH]; simpl; [constructor|].
  now apply insert_by_name_sorted.
Qed.

Lemma find_image_files_perm (directory : Dir) :
  Permutation (find_image_files self directory)
              (map fst (filter (is_image self) (entries directory))).
Proof.
  unfold find_image_files. rewrite image_loop. apply sort_by_name_perm.
Qed.

(** A name is enumerated exactly when it names a file whose lower-cased
    suffix is an allowed extension. *)
Lemma find_image_files_In (directory : Dir) (name : string) :
  In name (find_image_files self directory)
  <-> exists content,
        In (name, File content) (entries directory)
        /\ mem (lower (suffix name)) (allowed_extensions self) = true.
Proof.
  split.
  - intros H. apply (Permutation_in _ (find_image_files_perm directory)) in H.
    apply in_map_iff in H as ([n x] & <- & H).
    apply filter_In in H as [Hin Him]. unfold is_image in Him. simpl in *.
    apply andb_true_iff in Him as [Hf Hm].
    destruct x as [content|]; [|discriminate]. now exists content.
  - intros (content & Hin & Hm).
    apply (Permutation_in _ (Permutation_sym (find_image_files_perm directory))).
    apply in_map_iff. exists (name, File content). split; [reflexivity|].
    apply filter_In. split; [assumption|]. unfold is_image. simpl.
    now rewrite Hm.
Qed.

End Enumeration.

Lemma mem_In (x : string) (xs : list string) : mem x xs = true <-> In x xs.
Proof.
  unfold mem. rewrite existsb_exists. split.
  - intros (y & Hy & E). apply String.eqb_eq in E. now subst.
  - intros H. exists x. split; [assumption | apply String.eqb_refl].
Qed.

(** Matching against the extensions of the configuration ignores case. *)
Lemma mem_allowed_extensions {U : Unicode} (config : Config) (sfx : string) :
  mem (lower sfx) (allowed_extensions (init config)) = true
  <-> exists ext, In ext (cfg_allowed_extensions config)
                  /\ lower sfx = lower ext.
Proof.
  rewrite mem_In. simpl. rewrite in_map_iff.
  split; intros (ext & H1 & H2); exists ext; auto.
Qed.

Section Case.

Lemma N_of_lower_ascii (c : ascii) :
  N_of_ascii (lower_ascii c)
  = (if (65 <=? N_of_ascii c) && (N_of_ascii c <=? 90)
     then N_of_ascii c + 32 else N_of_ascii c)%N.
Proof.
  unfold lower_ascii.
  destruct (N.leb_spec 65 (N_of_ascii c)), (N.leb_spec (N_of_ascii c) 90);
    simpl; try reflexivity.
  apply N_ascii_embedding. lia.
Qed.

Lemma N_of_ascii_inj (a b : ascii) : N_of_ascii a = N_of_ascii b -> a = b.
Proof.
  intros E. rewrite <- (ascii_N_embedding a), <- (ascii_N_embedding b).
  now rewrite E.
Qed.

(** Two characters have the same lower case exactly when they are the same
    letter. *)
Lemma lower_ascii_same_letter (a b : ascii) :
  lower_ascii a = lower_ascii b <-> same_letter a b = true.
Proof.
  split.
  - intros E. apply (f_equal N_of_ascii) in E.
    rewrite !N_of_lower_ascii in E. unfold same_letter.
    destruct (N.leb_spec 65 (N_of_ascii a)), (N.leb_spec (N_of_ascii a) 90),
             (N.leb_spec 65 (N_of_ascii b)), (N.leb_spec (N_of_ascii b) 90),
             (N.eqb_spec (N_of_ascii a) (N_of_ascii b)),
             (N.eqb_spec (N_of_ascii b) (N_of_ascii a + 32)),
             (N.eqb_spec (N_of_ascii a) (N_of_ascii b + 32));
      simpl in *; try reflexivity; lia.
  - intros E. apply N_of_ascii_inj. rewrite !N_of_lower_ascii.
    unfold same_letter in E.
    destruct (N.leb_spec 65 (N_of_ascii a)), (N.leb_spec (N_of_ascii a) 90),
             (N.leb_spec 65 (N_of_ascii b)), (N.leb_spec (N_of_ascii b) 90),
             (N.eqb_spec (N_of_ascii a) (N_of_ascii b)),
             (N.eqb_spec (N_of_ascii b) (N_of_ascii a + 32)),
             (N.eqb_spec (N_of_ascii a) (N_of_ascii b + 32));
      simpl in *; try discriminate; lia.
Qed.

Lemma ascii_lower_ignoring_case (s t : string) :
  ascii_lower s = ascii_lower t <-> equal_ignoring_case s t = true.
Proof.
  revert t. induction s as [|a s IH]; intros [|b t]; simpl;
    try (split; [reflexivity | reflexivity]);
    try (split; discriminate).
  rewrite andb_true_iff, <- IH, <- lower_ascii_same_letter.
  split; [intros [= E1 E2]; auto | intros [E1 E2]; now rewrite E1, E2].
Qed.

Context {U : Unicode}.

(** With ASCII extensions and ASCII suffixes the enumeration is the one
    that the ASCII case mapping gives. *)
Lemma find_image_files_ascii (config : Config) (directory : Dir) :
  Forall (fun ext => is_ascii ext = true) (cfg_allowed_extensions config) ->
  Forall (fun entry => is_ascii (suffix (fst entry)) = true)
         (entries directory) ->
  find_image_files (init config) directory
  = find_image_files (U := ascii_unicode) (init (U := ascii_unicode) config)
      directory.
Proof.
  intros Hext Hent.
  assert (allowed_extensions (init config)
          = allowed_extensions (init (U := ascii_unicode) config)) as Ea.
  { simpl. apply map_ext_in. intros ext Hin.
    rewrite Forall_forall in Hext. now apply lower_of_ascii, Hext. }
  unfold find_image_files. f_equal.
  generalize (@nil string).
  induction Hent as [|entry es He _ IH]; intros acc; simpl; [reflexivity|].
  rewrite <- IH. f_equal. unfold image_step.
  now rewrite Ea, (lower_of_ascii _ He).
Qed.

End Case.


(** * The suffix of a file name *)

Section Suffix.

Lemma occurs_tail (sub s : string) (c : ascii) :
  occurs sub s -> occurs sub (String c s).
Proof. intros (a & b & ->). now exists (String c a), b. Qed.

Lemma rfind_cons (c : ascii) (s sub : string) :
  rfind (String c s) sub =
  if negb (rfind s sub =? -1) then rfind s sub + 1
  else if String.prefix sub (String c s) then 0 else -1.
Proof. reflexivity. Qed.

Lemma rfind_no_dot (s : string) : ~ occurs "." s -> rfind s "." = -1.
Proof.
  induction s as [|c s IH]; intros H; [reflexivity|].
  rewrite rfind_cons, IH by (intros Ho; apply H; now apply occurs_tail).
  change (negb (-1 =? -1)) with false. cbv iota.
  destruct (String.prefix "." (String c s)) eqn:E; [|reflexivity].
  apply prefix_iff in E as [r Hr]. elim H. now exists "", r.
Qed.

(** The last dot of [stem.ext], for a dot-free [ext], is the one between. *)
Lemma rfind_last_dot (stem ext : string) :
  ~ occurs "." ext -> rfind (stem ++ "." ++ ext) "." = len stem.
Proof.
  intros H. induction stem as [|c stem IH].
  - change ("" ++ "." ++ ext) with (String "." ext).
    rewrite rfind_cons, rfind_no_dot by assumption.
    change (negb (-1 =? -1)) with false. cbv iota.
    pose proof (prefix_append "." ext) as E.
    change ("." ++ ext) with (String "." ext) in E. now rewrite E.
  - change ((String c stem) ++ "." ++ ext)
      with (String c (stem ++ "." ++ ext)).
    rewrite rfind_cons, IH. pose proof (len_nonneg stem) as Hl.
    destruct (len stem =? -1) eqn:E; [apply Z.eqb_eq in E; lia|].
    unfold len. simpl String.length. simpl negb. cbv iota. lia.
Qed.

(** A name that is a dot followed by dot-free text has no suffix. *)
Lemma suffix_bare_extension (ext : string) :
  ~ occurs "." ext -> suffix ("." ++ ext) = "".
Proof.
  intros H. unfold suffix.
  pose proof (rfind_last_dot "" ext H) as E.
  change ("" ++ "." ++ ext) with ("." ++ ext) in E. now rewrite E.
Qed.

(** The suffix of [stem.ext] is [.ext], whatever dots [stem] holds. *)
Lemma suffix_last_extension (stem ext : string) :
  stem <> "" -> ext <> "" -> ~ occurs "." ext ->
  suffix (stem ++ "." ++ ext) = "." ++ ext.
Proof.
  intros Hs He H. unfold suffix. rewrite (rfind_last_dot stem ext H).
  assert (0 < len stem) as Hls by (destruct stem; [contradiction | unfold len; simpl; lia]).
  assert (0 < len ext) as Hle by (destruct ext; [contradiction | unfold len; simpl; lia]).
  rewrite !len_append.
  change (len ".") with 1.
  destruct (0 <? len stem) eqn:E1; [|apply Z.ltb_ge in E1; lia].
  destruct (len stem <? len stem + (1 + len ext) - 1) eqn:E2;
    [|apply Z.ltb_ge in E2; lia].
  simpl andb. cbv iota.
  rewrite slice_from_inside by (rewrite !len_append; change (len ".") with 1; lia).
  unfold len. rewrite Nat2Z.id. apply drop_append.
Qed.

End Suffix.

(** C10, with the empty string among the allowed extensions: the hidden file
    .jpg, whose lower-cased name is an allowed extension, has an empty
    suffix and is enumerated. *)
Lemma suffix_matching_empty_extension :
  let self := init (sample_config [".jpg"; ""] 2) in
  mem (lower ".jpg") (allowed_extensions self) = true
  /\ suffix ".jpg" = ""
  /\ In ".jpg" (find_image_files self hidden_jpg).
Proof.
  cbv zeta. split; [reflexivity|]. split; [reflexivity|].
  vm_compute. now left.
Qed.

(** C10 (amended): only the final dot-suffix of a name is matched.  A name
    that is a bare extension (a dot followed by dot-free text, such as .jpg)
    has an empty suffix, so it is enumerated only if the empty string is an
    allowed extension, and never when no allowed extension is empty, even if
    the lower-cased name is itself allowed.  A file stem.ext with a dot-free
    ext (such as a.tar.jpg) has the suffix .ext and is enumerated exactly
    when the lower case of .ext is the lower case of an allowed
    extension. *)
Theorem suffix_matching {U : Unicode}
  (config : Config) (directory : Dir) (stem ext : string) :
  ~ occurs "." ext ->
  (suffix ("." ++ ext) = ""
   /\ (In ("." ++ ext) (find_image_files (init config) directory) ->
       In "" (cfg_allowed_extensions config))
   /\ (~ In "" (cfg_allowed_extensions config) ->
       ~ In ("." ++ ext) (find_image_files (init config) directory)))
  /\ (stem <> "" -> ext <> "" ->
      suffix (stem ++ "." ++ ext) = "." ++ ext
      /\ forall content,
           In (stem ++ "." ++ ext, File content) (entries directory) ->
           (In (stem ++ "." ++ ext) (find_image_files (init config) directory)
            <-> exists allowed, In allowed (cfg_allowed_extensions config)
                                /\ lower ("." ++ ext) = lower allowed)).
Proof.
  intros Hdot.
  assert (In ("." ++ ext) (find_image_files (init config) directory) ->
          In "" (cfg_allowed_extensions config)) as Hbare.
  { intros H. apply find_image_files_In in H as (content & _ & Hm).
    rewrite (suffix_bare_extension ext Hdot) in Hm.
    apply mem_allowed_extensions in Hm as (e & Hin & He).
    rewrite (lower_of_ascii "" eq_refl) in He. symmetry in He.
    apply lower_nonempty in He. now rewrite <- He. }
  split; [split; [now apply suffix_bare_extension | split; [exact Hbare | tauto]]|].
  intros Hs He. pose proof (suffix_last_extension stem ext Hs He Hdot) as Hsfx.
  split; [exact Hsfx|]. intros content Hin.
  rewrite find_image_files_In, Hsfx. split.
  - intros (_ & _ & Hm). now apply mem_allowed_extensions.
  - intros Hm. exists content. split; [assumption|].
    now apply mem_allowed_extensions.
Qed.

Lemma suffix_matching_witness :
  ~ In ".jpg" (find_image_files sample hidden_jpg)
  /\ suffix "a.tar.jpg" = ".jpg"
  /\ In "a.tar.jpg" (find_image_files sample hidden_jpg).
Proof.
  assert (~ occurs "." "jpg") as Hdot by (apply find_none_iff; reflexivity).
  pose proof (suffix_matching (sample_config [".jpg"; ".PNG"] 2) hidden_jpg
                "a.tar" "jpg" Hdot) as [(_ & _ & Hbare) Hlast].
  split.
  - apply Hbare. simpl. intros [H|[H|[]]]; discriminate.
  - destruct Hlast as [Hsfx Hiff]; [discriminate | discriminate |].
    split; [exact Hsfx|].
    apply (Hiff ""); [simpl; auto|]. exists ".jpg". split; [simpl; auto|].
    reflexivity.
Defined.

(** * The directory processor *)

Section Processor.

Context {U : Unicode}.
Variable self : TableGenerator.

Let om := opening_marker self.
Let cm := closing_marker self.

Lemma lookup_write_text (name content : string) (es : list (string * node)) :
  lookup name es <> None ->
  lookup name (write_text name content es) = Some (File content).
Proof.
  induction es as [|[n x] es IH]; simpl; [congruence|].
  destruct (String.eqb n name) eqn:E; simpl; rewrite E; auto.
Qed.

Lemma lookup_write_text_other (name content other : string)
  (es : list (string * node)) :
  other <> name ->
  lookup other (write_text name content es) = lookup other es.
Proof.
  intros Hne. induction es as [|[n x] es IH]; simpl; [reflexivity|].
  destruct (String.eqb n name) eqn:E; simpl.
  - apply String.eqb_eq in E. subst n.
    destruct (String.eqb name other) eqn:E'; [|reflexivity].
    apply String.eqb_eq in E'. congruence.
  - now rewrite IH.
Qed.

Lemma names_write_text (name content : string) (es : list (string * node)) :
  map fst (write_text name content es) = map fst es.
Proof.
  induction es as [|[n x] es IH]; simpl; [reflexivity|].
  destruct (String.eqb n name); simpl; [reflexivity | now rewrite IH].
Qed.

Lemma write_text_twice (name c c' : string) (es : list (string * node)) :
  write_text name c (write_text name c' es) = write_text name c es.
Proof.
  induction es as [|[n x] es IH]; simpl; [reflexivity|].
  destruct (String.eqb n name) eqn:E; simpl; rewrite E;
    [reflexivity | now rewrite IH].
Qed.

(** Rewriting the text of a file leaves the enumeration as it was. *)
Lemma images_write_text (name c c' : string) (es : list (string * node)) :
  lookup name es = Some (File c) ->
  map fst (filter (is_image self) (write_text name c' es))
  = map fst (filter (is_image self) es).
Proof.
  induction es as [|[n x] es IH]; simpl; [reflexivity|].
  destruct (String.eqb n name) eqn:E.
  - intros [= ->]. cbn [filter].
    change (is_image self (n, File c')) with (is_image self (n, File c)).
    now destruct (is_image self (n, File c)).
  - intros H. cbn [filter].
    destruct (is_image self (n, x)); cbn [map]; now rewrite IH.
Qed.

Lemma find_image_files_write_text (rel rel' c c' : string)
  (es : list (string * node)) :
  lookup README_NAME es = Some (File c) ->
  find_image_files self
    {| relative_path := rel; entries := write_text README_NAME c' es |}
  = find_image_files self {| relative_path := rel'; entries := es |}.
Proof.
  intros H. unfold find_image_files. simpl. rewrite !image_loop. simpl.
  now rewrite (images_write_text _ _ _ _ H).
Qed.

(** The generated block opens with the opening marker and closes with the
    closing marker. *)
Lemma build_generated_block_ends (table : string) :
  exists inner,
    build_generated_block self table = om ++ NL ++ inner ++ NL ++ cm.
Proof.
  unfold build_generated_block. fold om cm.
  destruct (header_text self) as [h|], (footer_text self) as [f|]; simpl.
  - exists (h ++ NL ++ NL ++ table ++ NL ++ NL ++ f).
    now rewrite !append_assoc.
  - exists (h ++ NL ++ NL ++ table ++ NL).
    now rewrite !append_assoc.
  - exists (NL ++ table ++ NL ++ NL ++ f).
    now rewrite !append_assoc.
  - exists (NL ++ table ++ NL).
    now rewrite !append_assoc.
Qed.

(** What a run does when the README holds both markers. *)
Lemma process_directory_found (directory : Dir) (content : string) :
  readme_text directory = Some content ->
  find content om <> -1 -> find content cm <> -1 ->
  process_directory self directory
  = Ok {| relative_path := relative_path directory;
          entries :=
            write_text README_NAME
              (take (Z.to_nat (find content om)) content
               ++ regenerated_block self directory
               ++ drop (Z.to_nat (find content cm + len cm)) content)
              (entries directory) |}.
Proof.
  unfold readme_text, process_directory. intros H Ho Hc.
  destruct (lookup README_NAME (entries directory)) as [[c|]|];
    try discriminate.
  injection H as ->. rewrite locate_found by assumption. reflexivity.
Qed.

Lemma process_directory_not_found (directory : Dir) (content : string) :
  readme_text directory = Some content ->
  find content om = -1 \/ find content cm = -1 ->
  process_directory self directory = Ok directory.
Proof.
  unfold readme_text, process_directory. intros H Hn.
  destruct (lookup README_NAME (entries directory)) as [[c|]|];
    try discriminate.
  injection H as ->. now rewrite locate_not_found.
Qed.

Lemma readme_text_lookup (directory : Dir) (content : string) :
  readme_text directory = Some content ->
  lookup README_NAME (entries directory) = Some (File content).
Proof.
  unfold readme_text.
  destruct (lookup README_NAME (entries directory)) as [[c|]|]; congruence.
Qed.

End Processor.

(** * Properties of the directory processor *)

Lemma len_take_find (content sub : string) :
  find content sub <> -1 ->
  len (take (Z.to_nat (find content sub)) content) = find content sub.
Proof.
  intros H. destruct (find_range content sub) as [|[H1 H2]]; [contradiction|].
  pose proof (len_nonneg sub). unfold len in *. rewrite length_take. lia.
Qed.

Section ReadmeFile.

Lemma universal_newlines_id (s : string) :
  ~ occurs CR s -> universal_newlines s = s.
Proof.
  induction s as [|c s IH]; intros H; [reflexivity|].
  simpl. destruct (Ascii.eqb_spec c "013") as [->|_].
  - elim H. now exists "", s.
  - rewrite IH; [reflexivity|]. intros Ho. apply H. now apply occurs_tail.
Qed.

Lemma write_newlines_posix (s : string) : write_newlines Posix s = s.
Proof.
  induction s as [|c s IH]; [reflexivity|]. simpl.
  destruct (Ascii.eqb_spec c "010") as [->|_]; now rewrite IH.
Qed.

Lemma read_text_plain (bytes : string) :
  utf8_valid bytes = true -> ~ occurs CR bytes -> read_text bytes = Ok bytes.
Proof.
  intros Hv Hc. unfold read_text. now rewrite Hv, universal_newlines_id.
Qed.

Lemma encode_text_posix (data : string) :
  utf8_valid data = true -> encode_text Posix data = Ok data.
Proof.
  intros Hv. unfold encode_text. now rewrite Hv, write_newlines_posix.
Qed.

Context {U : Unicode}.
Variable p : platform.
Variable self : TableGenerator.

(** What a call does with a README that decodes and holds both markers. *)
Lemma process_directory_io_found (directory : Dir) (bytes content : string) :
  lookup README_NAME (entries directory) = Some (File bytes) ->
  read_text bytes = Ok content ->
  find content (opening_marker self) <> -1 ->
  find content (closing_marker self) <> -1 ->
  process_directory_io p self directory
  = match encode_text p
            (take (Z.to_nat (find content (opening_marker self))) content
             ++ regenerated_block self directory
             ++ drop (Z.to_nat (find content (closing_marker self)
                                + len (closing_marker self))) content)
    with
    | Ok written =>
        Returned {| relative_path := relative_path directory;
                    entries := write_text README_NAME written
                                 (entries directory) |}
    | Raise e =>
        Failed e {| relative_path := relative_path directory;
                    entries := write_text README_NAME ""
                                 (entries directory) |}
    end.
Proof.
  intros Hl Hr Ho Hc. unfold process_directory_io.
  rewrite Hl, Hr, locate_found by assumption. reflexivity.
Qed.

Lemma process_directory_io_not_found
  (directory : Dir) (bytes content : string) :
  lookup README_NAME (entries directory) = Some (File bytes) ->
  read_text bytes = Ok content ->
  find content (opening_marker self) = -1
  \/ find content (closing_marker self) = -1 ->
  process_directory_io p self directory = Returned directory.
Proof.
  intros Hl Hr Hn. unfold process_directory_io.
  now rewrite Hl, Hr, locate_not_found.
Qed.

End ReadmeFile.







(** * Further properties of the marker locator *)

Lemma take_append_ge (n : nat) (a b : string) :
  (String.length a <= n)%nat ->
  take n (a ++ b) = a ++ take (n - String.length a) b.
Proof.
  revert n. induction a as [|c a IH]; intros n H; simpl in *.
  - now rewrite Nat.sub_0_r.
  - destruct n as [|n]; [lia|]. simpl. rewrite IH by lia. reflexivity.
Qed.

Lemma append_empty_r (s : string) : s ++ "" = s.
Proof. induction s as [|c s IH]; simpl; [reflexivity | now rewrite IH]. Qed.

Lemma occurs_append (sub a s b : string) :
  occurs sub s -> occurs sub (a ++ s ++ b).
Proof.
  intros (x & y & ->). exists (a ++ x), (y ++ b).
  now rewrite !append_assoc.
Qed.

Lemma len_positive (s : string) : s <> "" -> 0 < len s.
Proof. destruct s; [contradiction | unfold len; simpl; lia]. Qed.

(** A non-empty pattern does not occur in the text in front of its first
    occurrence. *)
Lemma find_nothing_ahead (s sub : string) :
  sub <> "" -> find s sub <> -1 ->
  ~ occurs sub (take (Z.to_nat (find s sub)) s).
Proof.
  intros Hne Hf Hocc. apply occurs_find in Hocc.
  pose proof (find_append_found _ (drop (Z.to_nat (find s sub)) s) _ Hocc) as E.
  rewrite take_drop in E.
  destruct (find_range (take (Z.to_nat (find s sub)) s) sub) as [|[_ Hr]];
    [contradiction|].
  rewrite len_take_find in Hr by assumption.
  pose proof (len_positive sub Hne). lia.
Qed.

(** The result of the locator from the two offsets and a split of the text
    at them. *)
Lemma locate_at (self : TableGenerator) (A K B : string) :
  find (A ++ K ++ B) (opening_marker self) = len A ->
  find (A ++ K ++ B) (closing_marker self)
    = len (A ++ K) - len (closing_marker self) ->
  len (closing_marker self) <= len K ->
  find_readme_with_markers self (A ++ K ++ B) = (true, A, K, B).
Proof.
  intros Ho Hc Hk.
  pose proof (len_nonneg A). pose proof (len_nonneg K).
  pose proof (len_nonneg (closing_marker self)).
  rewrite len_append in Hc.
  rewrite locate_found by (rewrite ?Ho, ?Hc; lia).
  rewrite Ho, Hc.
  replace (len A + len K - len (closing_marker self)
           + len (closing_marker self) - len A) with (len K) by lia.
  replace (len A + len K - len (closing_marker self)
           + len (closing_marker self)) with (len (A ++ K))
    by (rewrite len_append; lia).
  unfold len. rewrite !Nat2Z.id.
  rewrite take_append, drop_append, take_append.
  now rewrite <- append_assoc, drop_append.
Qed.

(** X1: when the locator reports Found and the opening marker is not the
    empty string, the prefix it returns holds no opening marker. *)
Theorem locate_prefix_marker_free
  (self : TableGenerator) (content before block after : string) :
  find_readme_with_markers self content = (true, before, block, after) ->
  opening_marker self <> "" ->
  ~ occurs (opening_marker self) before.
Proof.
  intros H Hne.
  assert (fst (fst (fst (find_readme_with_markers self content))) = true) as F
    by now rewrite H.
  apply locate_flag in F as [Ho Hc]. rewrite locate_found in H by assumption.
  injection H as <- _ _. now apply find_nothing_ahead.
Qed.

Lemma locate_prefix_marker_free_witness :
  ~ occurs "<!-- BEGIN -->" ("# Nature" ++ NL).
Proof.
  apply (locate_prefix_marker_free sample plain_readme ("# Nature" ++ NL)
           "<!-- BEGIN -->old<!-- END -->" (NL ++ "bye")).
  - reflexivity.
  - discriminate.
Defined.

(** X2: when the locator reports Found and the first opening marker ends no
    later than the first closing marker starts, the text is
    prefix + open + M + close + suffix for one middle part M, the block is
    open + M + close, and a non-empty closing marker occurs neither in M nor
    anywhere in front of it. *)
Theorem locate_decomposition
  (self : TableGenerator) (content before block after : string) :
  find_readme_with_markers self content = (true, before, block, after) ->
  find content (opening_marker self) + len (opening_marker self)
    <= find content (closing_marker self) ->
  exists M,
    content = before ++ opening_marker self ++ M
              ++ closing_marker self ++ after
    /\ block = opening_marker self ++ M ++ closing_marker self
    /\ len before = find content (opening_marker self)
    /\ len (before ++ opening_marker self ++ M)
       = find content (closing_marker self)
    /\ (closing_marker self <> "" ->
        ~ occurs (closing_marker self) (before ++ opening_marker self ++ M)
        /\ ~ occurs (closing_marker self) M).
Proof.
  set (om := opening_marker self). set (cm := closing_marker self).
  intros H Hord.
  assert (fst (fst (fst (find_readme_with_markers self content))) = true) as F
    by now rewrite H.
  apply locate_flag in F as [Ho Hc]. fold om cm in Ho, Hc.
  rewrite locate_found in H by assumption. fold om cm in H.
  pose proof (find_nonneg _ _ Ho) as Ho0. pose proof (find_nonneg _ _ Hc) as Hc0.
  pose proof (len_nonneg om) as Hlo. pose proof (len_nonneg cm) as Hlc.
  destruct (find_range content cm) as [|[_ Hcr]]; [contradiction|].
  pose proof (find_split content om Ho) as So.
  pose proof (find_split content cm Hc) as Sc.
  pose proof (len_take_find content om Ho) as Lb.
  pose proof (len_take_find content cm Hc) as La.
  injection H as Eb Ek Ea.
  rewrite Eb in So, Lb. rewrite Ea in Sc.
  set (R := drop (Z.to_nat (find content om + len om)) content) in *.
  set (M := take (Z.to_nat (find content cm - find content om - len om)) R).
  assert (take (Z.to_nat (find content cm)) content = before ++ om ++ M) as Et.
  { transitivity (take (Z.to_nat (find content cm)) (before ++ om ++ R));
      [f_equal; exact So|].
    unfold len in *.
    rewrite take_append_ge by lia. f_equal.
    rewrite take_append_ge by lia. f_equal. unfold M. f_equal. lia. }
  rewrite Et in Sc, La.
  assert (content = before ++ om ++ M ++ cm ++ after) as Ec
    by (rewrite Sc at 1; now rewrite !append_assoc).
  exists M. split; [exact Ec|]. split; [|split; [exact Lb|split; [exact La|]]].
  - rewrite <- Ek, Ec.
    replace (Z.to_nat (find (before ++ om ++ M ++ cm ++ after) om))
      with (String.length before) by (rewrite <- Ec; unfold len in Lb; lia).
    rewrite drop_append.
    replace (Z.to_nat (find (before ++ om ++ M ++ cm ++ after) cm + len cm
                       - find (before ++ om ++ M ++ cm ++ after) om))
      with (String.length (om ++ M ++ cm)).
    + replace (om ++ M ++ cm ++ after) with ((om ++ M ++ cm) ++ after)
        by now rewrite !append_assoc.
      apply take_append.
    + rewrite <- Ec. rewrite !len_append in La. unfold len in *.
      rewrite !length_append. lia.
  - intros Hne.
    assert (~ occurs cm (before ++ om ++ M)) as Hno
      by (rewrite <- Et; now apply find_nothing_ahead).
    split; [exact Hno|]. intros HM. apply Hno.
    replace (before ++ om ++ M) with ((before ++ om) ++ M ++ "")
      by now rewrite append_assoc, append_empty_r.
    now apply occurs_append.
Qed.

Lemma locate_decomposition_witness :
  exists M,
    plain_readme = ("# Nature" ++ NL) ++ "<!-- BEGIN -->" ++ M
                   ++ "<!-- END -->" ++ NL ++ "bye"
    /\ "<!-- BEGIN -->old<!-- END -->" = "<!-- BEGIN -->" ++ M ++ "<!-- END -->"
    /\ len ("# Nature" ++ NL) = find plain_readme "<!-- BEGIN -->"
    /\ len (("# Nature" ++ NL) ++ "<!-- BEGIN -->" ++ M)
       = find plain_readme "<!-- END -->"
    /\ ("<!-- END -->" <> "" ->
        ~ occurs "<!-- END -->" (("# Nature" ++ NL) ++ "<!-- BEGIN -->" ++ M)
        /\ ~ occurs "<!-- END -->" M).
Proof.
  apply (locate_decomposition sample plain_readme ("# Nature" ++ NL)
           "<!-- BEGIN -->old<!-- END -->" (NL ++ "bye")).
  - reflexivity.
  - vm_compute. discriminate.
Defined.

(** * Further properties of the generated block and of the table *)

(** X3: a block built by [_build_generated_block] and placed between two
    texts is found again by the locator as the block, with the two texts as
    prefix and suffix, when the opening marker does not occur in the first
    text or across its end, and the closing marker occurs in the first text
    followed by the block only as the end of the block. *)
Theorem generated_block_located
  (self : TableGenerator) (table A B : string) :
  find (A ++ opening_marker self) (opening_marker self) = len A ->
  find (A ++ build_generated_block self table) (closing_marker self)
    = len (A ++ build_generated_block self table) - len (closing_marker self) ->
  find_readme_with_markers self (A ++ build_generated_block self table ++ B)
  = (true, A, build_generated_block self table, B).
Proof.
  intros Ho Hc.
  destruct (build_generated_block_ends self table) as [inner Hblock].
  pose proof (len_nonneg A). pose proof (len_nonneg inner).
  pose proof (len_nonneg (opening_marker self)).
  pose proof (len_nonneg (closing_marker self)).
  assert (len (closing_marker self) <= len (build_generated_block self table))
    as Hk by (rewrite Hblock, !len_append; change (len NL) with 1; lia).
  apply locate_at; [| |exact Hk].
  - rewrite Hblock, !append_assoc. now apply find_at_split.
  - rewrite <- append_assoc, find_append_found; [exact Hc|].
    rewrite Hc, len_append. lia.
Qed.

Lemma generated_block_located_witness :
  find_readme_with_markers sample
    ("intro" ++ build_generated_block sample "TABLE" ++ "outro")
  = (true, "intro", build_generated_block sample "TABLE", "outro").
Proof.
  apply (generated_block_located sample "TABLE" "intro" "outro");
    vm_compute; reflexivity.
Defined.

(** X4: the placeholder is returned for the empty item list and for no
    other: the result for a non-empty list is never the placeholder,
    whatever the column count. *)
Theorem generate_table_placeholder_iff
  (self : TableGenerator) (image_files : list string) (base_path : string) :
  generate_table self image_files base_path = NO_IMAGES <-> image_files = [].
Proof.
  split; [|now intros ->].
  destruct image_files as [|p ps]; [reflexivity|]. intros H. exfalso.
  unfold generate_table, row_text in H.
  change "| " with (String "|" " ") in H.
  rewrite !append_assoc in H. discriminate H.
Qed.

(** With no column to fill, the loop never closes a row. *)
Lemma table_loop_no_columns
  (self : TableGenerator) (base_path : string) (image_files : list string) :
  columns self <= 0 ->
  forall rows current_row,
    fold_left (table_step self base_path) image_files (rows, current_row)
    = (rows, (current_row ++ map (cell_text base_path) image_files)%list).
Proof.
  intros Hc. induction image_files as [|p ps IH]; intros rows row; simpl.
  - now rewrite app_nil_r.
  - destruct (Z.of_nat (length (row ++ [cell_text base_path p])) =? columns self)
      eqn:E.
    + apply Z.eqb_eq in E. rewrite length_app in E. simpl in E. lia.
    + rewrite IH. now rewrite <- app_assoc.
Qed.

(** X5: with a column count of zero or less and a non-empty item list, the
    header row and the separator row have no cell and all the cells stand
    in one data row, in input order and without padding. *)
Theorem generate_table_no_columns
  (self : TableGenerator) (image_files : list string) (base_path : string) :
  columns self <= 0 -> image_files <> [] ->
  generate_table self image_files base_path
  = "|  |" ++ NL ++ "|  |" ++ NL
    ++ row_text (map (cell_text base_path) image_files).
Proof.
  intros Hc Hne. unfold generate_table, table_rows.
  destruct image_files as [|p ps]; [contradiction|].
  rewrite table_loop_no_columns by assumption.
  unfold replicate, pad_row.
  replace (Z.to_nat (columns self)) with O by lia.
  reflexivity.
Qed.

Lemma generate_table_no_columns_witness :
  generate_table (init (sample_config [".jpg"] 0)) ["a.jpg"; "b.jpg"] "/w"
  = "|  |" ++ NL ++ "|  |" ++ NL
    ++ row_text (map (cell_text "/w") ["a.jpg"; "b.jpg"]).
Proof.
  apply generate_table_no_columns.
  - vm_compute. discriminate.
  - discriminate.
Defined.

(** * Further properties of the directory processor *)

Lemma process_directory_cases {U : Unicode}
  (self : TableGenerator) (directory : Dir) :
  (lookup README_NAME (entries directory) = Some Directory
   /\ process_directory self directory = Raise IsADirectoryError)
  \/ (lookup README_NAME (entries directory) <> Some Directory
      /\ process_directory self directory = Ok directory)
  \/ (exists content,
        lookup README_NAME (entries directory) = Some (File content)
        /\ find content (opening_marker self) <> -1
        /\ find content (closing_marker self) <> -1
        /\ process_directory self directory
           = Ok {| relative_path := relative_path directory;
                   entries :=
                     write_text README_NAME
                       (take (Z.to_nat (find content (opening_marker self)))
                             content
                        ++ regenerated_block self directory
                        ++ drop (Z.to_nat (find content (closing_marker self)
                                           + len (closing_marker self)))
                                content)
                       (entries directory) |}).
Proof.
  destruct (lookup README_NAME (entries directory)) as [[content|]|] eqn:Hl.
  - assert (readme_text directory = Some content) as Hr
      by (unfold readme_text; now rewrite Hl).
    destruct (Z.eq_dec (find content (opening_marker self)) (-1)) as [Eo|Eo];
      [right; left; split; [discriminate|];
       apply (process_directory_not_found self _ _ Hr); auto|].
    destruct (Z.eq_dec (find content (closing_marker self)) (-1)) as [Ec|Ec];
      [right; left; split; [discriminate|];
       apply (process_directory_not_found self _ _ Hr); auto|].
    right; right. exists content. repeat split; try assumption.
    now apply process_directory_found.
  - left. split; [reflexivity|]. unfold process_directory. now rewrite Hl.
  - right; left. split; [discriminate|]. unfold process_directory.
    now rewrite Hl.
Qed.

(** X6: a run never removes a marker from the README and never adds one to
    a README that lacks it: each marker occurs in the text after the run
    exactly when it occurred before, so a directory that was regenerated
    stays one that the next run regenerates, and a skipped one stays
    skipped. *)
Theorem process_directory_keeps_markers {U : Unicode}
  (self : TableGenerator) (directory directory' : Dir) (content : string) :
  process_directory self directory = Ok directory' ->
  readme_text directory = Some content ->
  exists content',
    readme_text directory' = Some content'
    /\ (occurs (opening_marker self) content'
        <-> occurs (opening_marker self) content)
    /\ (occurs (closing_marker self) content'
        <-> occurs (closing_marker self) content)
    /\ fst (fst (fst (find_readme_with_markers self content')))
       = fst (fst (fst (find_readme_with_markers self content))).
Proof.
  intros Hrun Hr.
  destruct (process_directory_cases self directory)
    as [[_ E]|[[_ E]|(c & Hl & Ho & Hc & E)]]; rewrite E in Hrun.
  - discriminate.
  - injection Hrun as <-. exists content. tauto.
  - injection Hrun as <-.
    assert (c = content) as -> by (apply readme_text_lookup in Hr; congruence).
    eexists. split.
    { unfold readme_text. simpl. rewrite lookup_write_text by congruence.
      reflexivity. }
    destruct (build_generated_block_ends self
                (generate_table self (find_image_files self directory)
                   (base_path_of self directory))) as [inner Hblock].
    fold (regenerated_block self directory) in Hblock.
    set (before := take _ content). set (after := drop _ content).
    assert (occurs (opening_marker self)
              (before ++ regenerated_block self directory ++ after)) as Oo.
    { exists before, (NL ++ inner ++ NL ++ closing_marker self ++ after).
      rewrite Hblock. now rewrite !append_assoc. }
    assert (occurs (closing_marker self)
              (before ++ regenerated_block self directory ++ after)) as Oc.
    { exists (before ++ opening_marker self ++ NL ++ inner ++ NL), after.
      rewrite Hblock. now rewrite !append_assoc. }
    pose proof (find_occurs _ _ Ho). pose proof (find_occurs _ _ Hc).
    split; [tauto|]. split; [tauto|].
    apply occurs_find in Oo, Oc.
    now rewrite !locate_found.
Qed.

Lemma process_directory_keeps_markers_witness :
  match process_directory sample plain_dir with
  | Ok directory' =>
      exists content',
        readme_text directory' = Some content'
        /\ (occurs "<!-- BEGIN -->" content'
            <-> occurs "<!-- BEGIN -->" plain_readme)
        /\ (occurs "<!-- END -->" content'
            <-> occurs "<!-- END -->" plain_readme)
        /\ fst (fst (fst (find_readme_with_markers sample content')))
           = fst (fst (fst (find_readme_with_markers sample plain_readme)))
  | Raise _ => False
  end.
Proof.
  destruct (process_directory sample plain_dir) as [directory'|e] eqn:E.
  - apply (process_directory_keeps_markers sample plain_dir directory'
             plain_readme E).
    reflexivity.
  - vm_compute in E. discriminate E.
Defined.

(** X7: a run leaves the enumeration of image files as it was, also when
    README.md itself has an allowed extension, and with it the block that
    the next run generates. *)
Theorem process_directory_keeps_images {U : Unicode}
  (self : TableGenerator) (directory directory' : Dir) :
  process_directory self directory = Ok directory' ->
  find_image_files self directory' = find_image_files self directory
  /\ regenerated_block self directory' = regenerated_block self directory.
Proof.
  intros Hrun.
  assert (find_image_files self directory' = find_image_files self directory
          /\ relative_path directory' = relative_path directory) as [Hi Hp].
  { destruct (process_directory_cases self directory)
      as [[_ E]|[[_ E]|(c & Hl & Ho & Hc & E)]]; rewrite E in Hrun.
    - discriminate.
    - injection Hrun as <-. auto.
    - injection Hrun as <-. split; [|reflexivity].
      rewrite (find_image_files_write_text self _ (relative_path directory)
                 _ _ _ Hl).
      now destruct directory. }
  split; [exact Hi|].
  unfold regenerated_block, base_path_of. now rewrite Hi, Hp.
Qed.

Lemma process_directory_keeps_images_witness :
  match process_directory sample plain_dir with
  | Ok directory' =>
      find_image_files sample directory' = find_image_files sample plain_dir
      /\ regenerated_block sample directory'
         = regenerated_block sample plain_dir
  | Raise _ => False
  end.
Proof.
  destruct (process_directory sample plain_dir) as [directory'|e] eqn:E.
  - exact (process_directory_keeps_images sample plain_dir directory' E).
  - vm_compute in E. discriminate E.
Defined.

(** * Further properties of the image enumeration *)

Section NameOrder.

Lemma name_le_trans (a b c : string) :
  name_le a b -> name_le b c -> name_le a c.
Proof.
  unfold name_le, String.leb. intros Hab Hbc.
  destruct (String.compare a b) eqn:Eab; [|clear Hab|discriminate].
  { apply String.compare_eq_iff in Eab. now subst. }
  destruct (String.compare b c) eqn:Ebc; [|clear Hbc|discriminate].
  { apply String.compare_eq_iff in Ebc. subst. now rewrite Eab. }
  apply OrderedTypeEx.String_as_OT.cmp_lt in Eab, Ebc.
  pose proof (OrderedTypeEx.String_as_OT.lt_trans _ _ _ Eab Ebc) as Hac.
  apply OrderedTypeEx.String_as_OT.cmp_lt in Hac.
  unfold OrderedTypeEx.String_as_OT.cmp in Hac. now rewrite Hac.
Qed.

Lemma name_le_antisym (a b : string) : name_le a b -> name_le b a -> a = b.
Proof. apply String.leb_antisym. Qed.

Lemma sorted_strongly (l : list string) :
  Sorted name_le l -> StronglySorted name_le l.
Proof. apply Sorted_StronglySorted. intros a b c. apply name_le_trans. Qed.

(** Two ascending lists with the same elements are the same list. *)
Lemma sorted_perm_unique (l1 l2 : list string) :
  StronglySorted name_le l1 -> StronglySorted name_le l2 ->
  Permutation l1 l2 -> l1 = l2.
Proof.
  revert l2. induction l1 as [|a l1 IH]; intros l2 S1 S2 P.
  - now apply Permutation_nil in P.
  - destruct l2 as [|b l2];
      [apply Permutation_sym, Permutation_nil in P; discriminate|].
    apply StronglySorted_inv in S1 as [S1 F1].
    apply StronglySorted_inv in S2 as [S2 F2].
    rewrite Forall_forall in F1, F2.
    assert (a = b) as ->.
    { assert (In a (b :: l2)) as Ha
        by (apply (Permutation_in _ P); now left).
      assert (In b (a :: l1)) as Hb
        by (apply (Permutation_in _ (Permutation_sym P)); now left).
      destruct Ha as [->|Ha]; [reflexivity|].
      destruct Hb as [->|Hb]; [reflexivity|].
      apply name_le_antisym; auto. }
    f_equal. apply IH; try assumption.
    now apply Permutation_cons_inv in P.
Qed.

Lemma filter_perm {A : Type} (f : A -> bool) (l1 l2 : list A) :
  Permutation l1 l2 -> Permutation (filter f l1) (filter f l2).
Proof.
  induction 1 as [|x l l' _ IH|x y l|l l' l'' _ IH1 _ IH2]; simpl.
  - constructor.
  - destruct (f x); [now constructor | assumption].
  - destruct (f x), (f y); try reflexivity. apply perm_swap.
  - now transitivity (filter f l').
Qed.

End NameOrder.

(** X8: the enumeration does not depend on the order in which the operating
    system lists the directory: two listings of the same entries give the
    same list of image files. *)
Theorem find_image_files_order_independent {U : Unicode}
  (self : TableGenerator) (directory1 directory2 : Dir) :
  Permutation (entries directory1) (entries directory2) ->
  find_image_files self directory1 = find_image_files self directory2.
Proof.
  intros P. apply sorted_perm_unique.
  - apply sorted_strongly, sort_by_name_sorted.
  - apply sorted_strongly, sort_by_name_sorted.
  - rewrite !find_image_files_perm.
    apply Permutation_map. now apply filter_perm.
Qed.

Lemma find_image_files_order_independent_witness :
  find_image_files sample three_images
  = find_image_files sample
      {| relative_path := "nature";
         entries := [("c.JPG", File ""); ("b.png", File "");
                     ("a.jpg", File "")] |}.
Proof.
  apply find_image_files_order_independent. simpl.
  apply perm_trans with [("b.png", File ""); ("c.JPG", File ""); ("a.jpg", File "")].
  - apply perm_skip, perm_swap.
  - apply perm_swap.
Defined.

Lemma lookup_unique (es : list (string * node)) (name : string) (x : node) :
  NoDup (map fst es) -> In (name, x) es -> lookup name es = Some x.
Proof.
  induction es as [|[n y] es IH]; intros Hnd Hin; [contradiction|].
  simpl in *. apply NoDup_cons_iff in Hnd as [Hn Hnd].
  destruct Hin as [[= -> ->]|Hin].
  - now rewrite String.eqb_refl.
  - destruct (String.eqb n name) eqn:E; [|auto].
    apply String.eqb_eq in E. subst n. elim Hn.
    apply in_map_iff. now exists (name, x).
Qed.

Lemma names_filter_nodup (f : string * node -> bool)
  (es : list (string * node)) :
  NoDup (map fst es) -> NoDup (map fst (filter f es)).
Proof.
  induction es as [|e es IH]; simpl; intros Hnd; [constructor|].
  apply NoDup_cons_iff in Hnd as [Hn Hnd].
  destruct (f e); simpl; [|auto]. constructor; [|auto].
  intros Hin. apply Hn. apply in_map_iff in Hin as (e' & <- & Hin).
  apply in_map, (proj1 (filter_In _ _ _) Hin).
Qed.

(** X9: in a directory whose entries have distinct names, every image file
    is enumerated once, and every name enumerated is the name of a regular
    file of the directory, never of a subdirectory. *)
Theorem find_image_files_distinct {U : Unicode}
  (self : TableGenerator) (directory : Dir) :
  NoDup (map fst (entries directory)) ->
  NoDup (find_image_files self directory)
  /\ forall name,
       In name (find_image_files self directory) ->
       exists content,
         lookup name (entries directory) = Some (File content).
Proof.
  intros Hnd. split.
  - apply (Permutation_NoDup
             (Permutation_sym (find_image_files_perm self directory))).
    now apply names_filter_nodup.
  - intros name Hin. apply find_image_files_In in Hin as (content & Hin & _).
    exists content. now apply lookup_unique.
Qed.

Lemma find_image_files_distinct_witness :
  NoDup (find_image_files sample plain_dir)
  /\ forall name,
       In name (find_image_files sample plain_dir) ->
       exists content, lookup name (entries plain_dir) = Some (File content).
Proof.
  apply find_image_files_distinct. simpl.
  repeat constructor; simpl; intuition discriminate.
Defined.

(** * The text-level processor and the README as a file *)


